(** * MapData: resolving a program counter to its memory mapping

    A shallow embedding of [libc/malloc_debug/MapData.cpp]: the parser of
    the [/proc/self/maps] lines, the bounds-checked reads of the ELF
    header that lives in the process image, the lazily computed load
    bias, and [MapData::find] with its handling of a read-only /
    read-execute pair of mappings of one file.

    Machine integers are [Z] with the wrap-around of [uintptr_t] written
    out; the process image is a function from addresses to bytes; the
    ordered set of entries is a list kept in ascending address order and
    updated in place by index. *)

From Stdlib Require Import ZArith Lia Bool Ascii String List.
From stdpp Require Import base list.
Import ListNotations.

Local Open Scope Z_scope.

(** ** Platform: pointer width and the ELF layout of <elf.h> *)

(** [ElfW(type)] selects the 32-bit or the 64-bit ELF structures after
    the width of a pointer. *)
Inductive ElfClass : Set := ELFCLASS32 | ELFCLASS64.

Definition ptr_bits (cls : ElfClass) : Z :=
  match cls with ELFCLASS32 => 32 | ELFCLASS64 => 64 end.

(** Number of values of [uintptr_t]. *)
Definition ptr_modulus (cls : ElfClass) : Z := 2 ^ ptr_bits cls.

(** Arithmetic on [uintptr_t] is modulo [ptr_modulus]. *)
Definition wrap (cls : ElfClass) (z : Z) : Z := z mod ptr_modulus cls.

(** <sys/mman.h> *)
Definition PROT_READ : Z := 1.
Definition PROT_EXEC : Z := 4.

(** <elf.h>: the magic number, its length, and the loadable segment type. *)
Definition ELFMAG : list Z := [127; 69; 76; 70].
Definition SELFMAG : Z := 4.
Definition PT_LOAD : Z := 1.

(** [sizeof] of the ELF scalar types. *)
Definition sizeof_Half : Z := 2.
Definition sizeof_Word : Z := 4.
Definition sizeof_Off (cls : ElfClass) : Z :=
  match cls with ELFCLASS32 => 4 | ELFCLASS64 => 8 end.
Definition sizeof_Addr (cls : ElfClass) : Z :=
  match cls with ELFCLASS32 => 4 | ELFCLASS64 => 8 end.

(** [offsetof(ElfW(Ehdr), field)]. *)
Definition offsetof_e_phoff (cls : ElfClass) : Z :=
  match cls with ELFCLASS32 => 28 | ELFCLASS64 => 32 end.
Definition offsetof_e_phnum (cls : ElfClass) : Z :=
  match cls with ELFCLASS32 => 44 | ELFCLASS64 => 56 end.

(** [offsetof(ElfW(Phdr), field)] and [sizeof(ElfW(Phdr))]. *)
Definition offsetof_p_type (cls : ElfClass) : Z := 0.
Definition offsetof_p_offset (cls : ElfClass) : Z :=
  match cls with ELFCLASS32 => 4 | ELFCLASS64 => 8 end.
Definition offsetof_p_vaddr (cls : ElfClass) : Z :=
  match cls with ELFCLASS32 => 8 | ELFCLASS64 => 16 end.
Definition sizeof_Phdr (cls : ElfClass) : Z :=
  match cls with ELFCLASS32 => 32 | ELFCLASS64 => 56 end.

(** ** The process image *)

(** One byte per address; only the low eight bits of a cell count. *)
Definition Memory : Type := Z -> Z.

Definition byte_at (mem : Memory) (addr : Z) : Z := mem addr mod 256.

(** [*reinterpret_cast<T*>(addr)] for an unsigned [T] of [n] bytes, on a
    little-endian machine. *)
Fixpoint load (cls : ElfClass) (mem : Memory) (addr : Z) (n : nat) : Z :=
  match n with
  | O => 0
  | S k => byte_at mem addr + 256 * load cls mem (wrap cls (addr + 1)) k
  end.

(** The bytes [memcmp] looks at. *)
Fixpoint bytes_at (cls : ElfClass) (mem : Memory) (addr : Z) (n : nat) : list Z :=
  match n with
  | O => []
  | S k => byte_at mem addr :: bytes_at cls mem (wrap cls (addr + 1)) k
  end.

(** ** Entries *)

(** Modelled from the spec: [struct MapEntry] is declared in MapData.h,
    which is not among the sources.  The fields are those the code reads
    and writes; the spec gives their meaning in its data model. *)
Record MapEntry : Type := mkMapEntry {
  start : Z;
  end_ : Z;
  offset : Z;
  load_bias : Z;
  elf_start_offset : Z;
  name : string;
  flags : Z;
  init : bool;
  valid : bool
}.

Definition set_load_bias (v : Z) (e : MapEntry) : MapEntry :=
  mkMapEntry (start e) (end_ e) (offset e) v (elf_start_offset e)
             (name e) (flags e) (init e) (valid e).

Definition set_elf_start_offset (v : Z) (e : MapEntry) : MapEntry :=
  mkMapEntry (start e) (end_ e) (offset e) (load_bias e) v
             (name e) (flags e) (init e) (valid e).

Definition set_init (b : bool) (e : MapEntry) : MapEntry :=
  mkMapEntry (start e) (end_ e) (offset e) (load_bias e) (elf_start_offset e)
             (name e) (flags e) b (valid e).

Definition set_valid (b : bool) (e : MapEntry) : MapEntry :=
  mkMapEntry (start e) (end_ e) (offset e) (load_bias e) (elf_start_offset e)
             (name e) (flags e) (init e) b.

(** Modelled from the spec: the constructor
    [MapEntry(start, end, offset, name, name_len, flags)] of MapData.h.
    A new entry is neither initialised nor valid, borrows no start offset,
    and has bias 0 (the spec: the entry's own bias is 0 if it never
    validated). *)
Definition new_MapEntry (s e o : Z) (nm : string) (fl : Z) : MapEntry :=
  mkMapEntry s e o 0 0 nm fl false false.

(** ** Bounds-checked reads *)

(** [get_val<T>(entry, addr, store)] with [size = sizeof(T)]: [None] is
    the [false] return, [Some v] is [true] with [*store = v].  The sum
    [addr + sizeof(T)] is computed in [uintptr_t]. *)
Definition get_val (cls : ElfClass) (mem : Memory) (entry : MapEntry)
           (addr : Z) (size : Z) : option Z :=
  if (Z.land (flags entry) PROT_READ =? 0)
     || (addr <? start entry)
     || (wrap cls (addr + size) >? end_ entry)
  then None
  else if negb (Z.land addr (size - 1) =? 0)
  then None
  else Some (load cls mem addr (Z.to_nat size)).

(** ** Recognising an ELF image *)

(** [__builtin_add_overflow(addr, SELFMAG, &end)] is true when the exact
    sum does not fit [uintptr_t]. *)
Definition valid_elf (cls : ElfClass) (mem : Memory) (entry : MapEntry) : bool :=
  let addr := start entry in
  if (ptr_modulus cls <=? addr + SELFMAG) || (addr + SELFMAG >=? end_ entry)
  then false
  else bool_decide (bytes_at cls mem addr (Z.to_nat SELFMAG) = ELFMAG).

(** ** The load bias *)

(** The [for] loop of [read_loadbias]: [n] program headers are left to
    look at and [addr] is the address of the next one.  The result is the
    value [entry->load_bias] has when the function returns. *)
Fixpoint phdr_loop (cls : ElfClass) (mem : Memory) (entry : MapEntry)
         (n : nat) (addr : Z) : Z :=
  match n with
  | O => 0
  | S n' =>
    match get_val cls mem entry (wrap cls (addr + offsetof_p_type cls)) sizeof_Word with
    | None => 0
    | Some p_type =>
      match get_val cls mem entry (wrap cls (addr + offsetof_p_offset cls)) (sizeof_Off cls) with
      | None => 0
      | Some p_offset =>
        if (p_type =? PT_LOAD) && (p_offset =? offset entry)
        then match get_val cls mem entry (wrap cls (addr + offsetof_p_vaddr cls)) (sizeof_Addr cls) with
             | None => 0
             | Some p_vaddr => p_vaddr
             end
        else phdr_loop cls mem entry n' (wrap cls (addr + sizeof_Phdr cls))
      end
    end
  end.

Definition read_loadbias (cls : ElfClass) (mem : Memory) (entry : MapEntry) : MapEntry :=
  let entry := set_load_bias 0 entry in
  let addr := start entry in
  match get_val cls mem entry (wrap cls (addr + offsetof_e_phnum cls)) sizeof_Half with
  | None => entry
  | Some e_phnum =>
    match get_val cls mem entry (wrap cls (addr + offsetof_e_phoff cls)) (sizeof_Off cls) with
    | None => entry
    | Some e_phoff =>
      let addr := wrap cls (addr + e_phoff) in
      set_load_bias (phdr_loop cls mem entry (Z.to_nat e_phnum) addr) entry
    end
  end.

(** [init(entry)]: runs once per entry. *)
Definition init_entry (cls : ElfClass) (mem : Memory) (entry : MapEntry) : MapEntry :=
  if init entry then entry
  else
    let entry := set_init true entry in
    if valid_elf cls mem entry
    then read_loadbias cls mem (set_valid true entry)
    else entry.

(** ** Scanning one line of /proc/self/maps *)

Definition newline : ascii := "010"%char.

(** [isspace] in the C locale. *)
Definition isspace (c : ascii) : bool :=
  let n := nat_of_ascii c in
  (Nat.eqb n 32) || (Nat.leb 9 n && Nat.leb n 13).

(** The value of a hexadecimal digit. *)
Definition hex_digit (c : ascii) : option Z :=
  let n := Z.of_nat (nat_of_ascii c) in
  if (48 <=? n) && (n <=? 57) then Some (n - 48)
  else if (97 <=? n) && (n <=? 102) then Some (n - 87)
  else if (65 <=? n) && (n <=? 70) then Some (n - 55)
  else None.

Definition dec_digit (c : ascii) : option Z :=
  let n := Z.of_nat (nat_of_ascii c) in
  if (48 <=? n) && (n <=? 57) then Some (n - 48) else None.

(** White space in the format, and the blanks a conversion skips. *)
Fixpoint skip_space (s : string) : string :=
  match s with
  | String c s' => if isspace c then skip_space s' else s
  | EmptyString => s
  end.

(** The digits at the front of [s] in the given base, accumulated on
    [acc], and what follows them. *)
Fixpoint scan_digits (digit : ascii -> option Z) (base : Z) (acc : Z) (s : string)
  : Z * string :=
  match s with
  | String c s' =>
    match digit c with
    | Some d => scan_digits digit base (base * acc + d) s'
    | None => (acc, s)
    end
  | EmptyString => (acc, s)
  end.

(** An optional sign. *)
Definition scan_sign (s : string) : bool * string :=
  match s with
  | String c s' =>
    if (c =? "-")%char then (true, s')
    else if (c =? "+")%char then (false, s')
    else (false, s)
  | EmptyString => (false, s)
  end.

(** A character of the format that is neither a blank nor a conversion:
    the next character of the input has to be that one. *)
Definition expect (c : ascii) (s : string) : option string :=
  match s with
  | String c' s' => if (c' =? c)%char then Some s' else None
  | EmptyString => None
  end.

Definition is_hex (c : ascii) : bool :=
  match hex_digit c with Some _ => true | None => false end.

(** [strtoumax] on the scanned digits: the value saturates at the largest
    [uintmax_t], a minus sign negates in [uintmax_t]; storing through a
    [uintptr_t*] keeps the low bits. *)
Definition to_uintptr (cls : ElfClass) (neg : bool) (v : Z) : Z :=
  let m := 2 ^ 64 in
  let v := if m <=? v then m - 1 else if neg then (m - v) mod m else v in
  wrap cls v.

(** The conversion [%x] (with or without a size modifier or [*]): blanks,
    an optional sign, an optional [0x] when a digit follows it, and at
    least one hexadecimal digit. *)
Definition scan_hex (cls : ElfClass) (s : string) : option (Z * string) :=
  let (neg, s1) := scan_sign (skip_space s) in
  let s2 :=
    match s1 with
    | String z (String x (String h t)) =>
      if (z =? "0")%char && ((x =? "x") || (x =? "X"))%char && is_hex h
      then String h t else s1
    | _ => s1
    end in
  match s2 with
  | String c _ =>
    match hex_digit c with
    | Some _ => let (v, rest) := scan_digits hex_digit 16 0 s2 in
                Some (to_uintptr cls neg v, rest)
    | None => None
    end
  | EmptyString => None
  end.

(** The conversion [%*d]: blanks, an optional sign, decimal digits;
    nothing is stored. *)
Definition scan_dec (s : string) : option string :=
  let (_, s1) := scan_sign (skip_space s) in
  match s1 with
  | String c _ =>
    match dec_digit c with
    | Some _ => Some (snd (scan_digits dec_digit 10 0 s1))
    | None => None
    end
  | EmptyString => None
  end.

(** At most [n] characters up to the next blank. *)
Fixpoint scan_word (n : nat) (s : string) : string * string :=
  match n, s with
  | S n', String c s' =>
    if isspace c then (EmptyString, s)
    else let (w, rest) := scan_word n' s' in (String c w, rest)
  | _, _ => (EmptyString, s)
  end.

(** The conversion [%4s]: blanks, then one to four characters. *)
Definition scan_str4 (s : string) : option (string * string) :=
  match skip_space s with
  | EmptyString => None
  | s1 => Some (scan_word 4 s1)
  end.

(** What [sscanf] leaves behind: its return value and the locals it
    assigned; a local it did not reach stays indeterminate ([None]). *)
Record Scanned : Type := mkScanned {
  sc_ret : Z;
  sc_start : option Z;
  sc_end : option Z;
  sc_permissions : option string;
  sc_offset : option Z;
  sc_name_pos : option nat
}.

(** The directives [%*x:%*x %*d %n] that follow the fourth conversion:
    the position at which the name starts, if the scan gets there. *)
Definition scan_tail (cls : ElfClass) (line rest : string) : option nat :=
  match scan_hex cls (skip_space rest) with
  | Some (_, r0) =>
    match expect ":" r0 with
    | Some r1 =>
      match scan_hex cls r1 with
      | Some (_, r2) =>
        match scan_dec (skip_space r2) with
        | Some r3 => Some (String.length line - String.length (skip_space r3))%nat
        | None => None
        end
      | None => None
      end
    | None => None
    end
  | None => None
  end.

(** [sscanf(line, "%" PRIxPTR "-%" PRIxPTR " %4s %" PRIxPTR " %*x:%*x %*d %n",
            &start, &end, permissions, &offset, &name_pos)].
    The return value is the number of conversions stored, or [EOF] when
    the input ends before the first one. *)
Definition sscanf_line (cls : ElfClass) (line : string) : Scanned :=
  match scan_hex cls line with
  | None =>
    mkScanned (match skip_space line with EmptyString => -1 | _ => 0 end)
              None None None None None
  | Some (s, r0) =>
    match expect "-" r0 with
    | None => mkScanned 1 (Some s) None None None None
    | Some r1 =>
      match scan_hex cls r1 with
      | None => mkScanned 1 (Some s) None None None None
      | Some (e, r2) =>
        match scan_str4 (skip_space r2) with
        | None => mkScanned 2 (Some s) (Some e) None None None
        | Some (perms, r3) =>
          match scan_hex cls (skip_space r3) with
          | None => mkScanned 3 (Some s) (Some e) (Some perms) None None
          | Some (o, r4) =>
            mkScanned 4 (Some s) (Some e) (Some perms) (Some o) (scan_tail cls line r4)
          end
        end
      end
    end
  end.

(** [permissions[i]] after [%4s] stored [perms] and its terminating NUL;
    a cell beyond the terminator was never written. *)
Definition permissions_at (perms : string) (i : nat) : option ascii :=
  match String.get i perms with
  | Some c => Some c
  | None => if Nat.eqb i (String.length perms) then Some zero else None
  end.

(** The characters of [s] from position [n] on: [s + n]. *)
Fixpoint string_drop (n : nat) (s : string) : string :=
  match n, s with
  | S n', String _ s' => string_drop n' s'
  | _, _ => s
  end.

(** The last character of a string, if it has one: [s[strlen(s) - 1]]. *)
Fixpoint string_last (s : string) : option ascii :=
  match s with
  | EmptyString => None
  | String c EmptyString => Some c
  | String _ s' => string_last s'
  end.

(** The result of [parse_line]: the null pointer, a new entry, or no
    defined result at all when the code goes on with a local that
    [sscanf] left indeterminate. *)
Inductive Parsed : Type :=
| ParseNull
| ParseEntry (entry : MapEntry)
| ParseUndefined.

Definition parse_line (cls : ElfClass) (line : string) : Parsed :=
  let sc := sscanf_line cls line in
  if sc_ret sc <? 2 then ParseNull
  else
    match sc_start sc, sc_end sc, sc_permissions sc, sc_offset sc, sc_name_pos sc with
    | Some start, Some end_, Some permissions, Some offset, Some name_pos =>
      let name := string_drop name_pos line in
      let name_len := String.length name in
      let name_len :=
        match string_last name with
        | Some c => if (c =? newline)%char then (name_len - 1)%nat else name_len
        | None => name_len
        end in
      match permissions_at permissions 0, permissions_at permissions 2 with
      | Some p0, Some p2 =>
        let flags := 0 in
        let flags := if (p0 =? "r")%char then Z.lor flags PROT_READ else flags in
        let flags := if (p2 =? "x")%char then Z.lor flags PROT_EXEC else flags in
        let entry := new_MapEntry start end_ offset (substring 0 name_len name) flags in
        ParseEntry
          (if Z.land flags PROT_READ =? 0
           then set_valid false (set_init true (set_load_bias 0 entry))
           else entry)
      | _, _ => ParseUndefined
      end
    | _, _, _, _, _ => ParseUndefined
    end.

(** ** The table *)

(** Modelled from the spec: the member [entries_] of MapData.h, an
    ordered set of entries, is not among the sources.  The spec: entries
    are kept ordered by [start], ascending; a lookup key carries only a
    probe address and matches the entry whose range [[start, end)]
    contains it.  The table is the list of the entries in that order;
    an iterator is a position in it. *)
Definition contains (probe : Z) (entry : MapEntry) : bool :=
  (start entry <=? probe) && (probe <? end_ entry).

(** Modelled from the spec: [entries_.find(key)], where the probe
    address of [key] is its [start] ([MapEntry pc_entry(pc)] starts at
    [pc]); [None] is [entries_.end()]. *)
Fixpoint entries_find (probe : Z) (tbl : list MapEntry) : option nat :=
  match tbl with
  | [] => None
  | entry :: tbl' =>
    if contains probe entry then Some O
    else option_map S (entries_find probe tbl')
  end.

(** Modelled from the spec: [entries_.insert(entry)] for an entry that
    [entries_.find] did not match: the entry goes in front of the first
    one that starts after it. *)
Fixpoint entries_insert (entry : MapEntry) (tbl : list MapEntry) : list MapEntry :=
  match tbl with
  | [] => [entry]
  | e :: tbl' =>
    if start entry <? start e then entry :: tbl
    else e :: entries_insert entry tbl'
  end.

(** ** Reading the mapping source *)

(** The successive results of [fgets(buffer, size, fp)] on a stream that
    holds [s]: [room] characters still fit the line being read, which is
    the head of the result. *)
Definition push_char (c : ascii) (chunks : list string) : list string :=
  match chunks with
  | l :: ls => String c l :: ls
  | [] => [String c EmptyString]
  end.

Fixpoint fgets_chunks (size : nat) (room : nat) (s : string) : list string :=
  match s with
  | EmptyString => [EmptyString]
  | String c s' =>
    let step (r : nat) :=
      if (c =? newline)%char
      then String c EmptyString :: fgets_chunks size (size - 1) s'
      else push_char c (fgets_chunks size (r - 1) s') in
    match room with
    | O => EmptyString :: step (size - 1)%nat
    | S _ => step room
    end
  end.

Definition nonempty (s : string) : bool :=
  match s with EmptyString => false | _ => true end.

(** The lines the [while (fgets(...) != nullptr)] loop sees. *)
Definition fgets_lines (size : nat) (s : string) : list string :=
  List.filter nonempty (fgets_chunks size (size - 1) s).

(** The body of the loop of [ReadMaps], over the lines still to come:
    the return value and the table, or [None] when [parse_line] has no
    defined result. *)
Fixpoint ReadMaps_loop (cls : ElfClass) (lines : list string) (tbl : list MapEntry)
  : option (bool * list MapEntry) :=
  match lines with
  | [] => Some (true, tbl)
  | line :: lines' =>
    match parse_line cls line with
    | ParseNull => Some (false, tbl)
    | ParseUndefined => None
    | ParseEntry entry =>
      match entries_find (start entry) tbl with
      | None => ReadMaps_loop cls lines' (entries_insert entry tbl)
      | Some _ => ReadMaps_loop cls lines' tbl
      end
    end
  end.

(** The mapping source: what [/proc/self/maps] holds the [k]-th time it
    is opened, or [None] when [fopen] fails. *)
Definition MapsSource : Type := nat -> option string.

(** The table together with the number of times the source was opened. *)
Record MapData : Type := mkMapData {
  entries_ : list MapEntry;
  refreshes : nat
}.

Definition ReadMaps (cls : ElfClass) (src : MapsSource) (d : MapData)
  : option (bool * MapData) :=
  let d' := mkMapData (entries_ d) (S (refreshes d)) in
  match src (refreshes d) with
  | None => Some (false, d')
  | Some text =>
    match ReadMaps_loop cls (fgets_lines 1024 text) (entries_ d') with
    | Some (ok, tbl) => Some (ok, mkMapData tbl (refreshes d'))
    | None => None
    end
  end.

(** ** Lookup *)

(** What a call of [find] leaves: the returned pointer as the position of
    the entry in the table ([None] is [nullptr]), the value stored
    through [rel_pc] if one was stored, and the table afterwards. *)
Record Found : Type := mkFound {
  found_entry : option nat;
  found_rel_pc : option Z;
  found_data : MapData
}.

Definition with_entries (tbl : list MapEntry) (d : MapData) : MapData :=
  mkMapData tbl (refreshes d).

(** The part of [find] after the entry at position [it] was found.
    [want_rel_pc] tells whether [rel_pc] is not null. *)
Definition find_at (cls : ElfClass) (mem : Memory) (pc : Z) (want_rel_pc : bool)
           (it : nat) (d : MapData) : Found :=
  match entries_ d !! it with
  | None => mkFound None None d
  | Some entry0 =>
    let entry := init_entry cls mem entry0 in
    let tbl := <[it := entry]> (entries_ d) in
    let own tbl :=
      mkFound (Some it)
              (Some (wrap cls (pc - start entry + offset entry + load_bias entry)))
              (with_entries tbl d) in
    if want_rel_pc then
      if negb (valid entry) && negb (Nat.eqb it 0) then
        match tbl !! (it - 1)%nat with
        | None => own tbl
        | Some prev_entry0 =>
          if (flags prev_entry0 =? PROT_READ)
             && (offset prev_entry0 <? offset entry)
             && String.eqb (name prev_entry0) (name entry)
          then
            let prev_entry := init_entry cls mem prev_entry0 in
            let tbl := <[(it - 1)%nat := prev_entry]> tbl in
            if valid prev_entry then
              let entry' := set_elf_start_offset (offset prev_entry) entry in
              mkFound (Some it)
                      (Some (wrap cls (pc - start entry + offset entry
                                       + load_bias prev_entry)))
                      (with_entries (<[it := entry']> tbl) d)
            else own tbl
          else own tbl
        end
      else own tbl
    else mkFound (Some it) None (with_entries tbl d)
  end.

(** [MapData::find(pc, rel_pc)]; [None] when the refresh has no defined
    result.  The return value of [ReadMaps] is not looked at. *)
Definition find (cls : ElfClass) (mem : Memory) (src : MapsSource)
           (pc : Z) (want_rel_pc : bool) (d : MapData) : option Found :=
  let after_refresh :=
    match entries_find pc (entries_ d) with
    | None => option_map snd (ReadMaps cls src d)
    | Some _ => Some d
    end in
  match after_refresh with
  | None => None
  | Some d1 =>
    match entries_find pc (entries_ d1) with
    | None => Some (mkFound None None d1)
    | Some it => Some (find_at cls mem pc want_rel_pc it d1)
    end
  end.

(** ** The program-header walk, as the specification words it *)

(** Address of the [i]-th program header when the table is at file
    offset [e_phoff] of the image that starts at [start entry]. *)
Definition phdr_addr (cls : ElfClass) (entry : MapEntry) (e_phoff : Z) (i : nat) : Z :=
  wrap cls (start entry + e_phoff + Z.of_nat i * sizeof_Phdr cls).

Definition p_type_at cls mem entry e_phoff (i : nat) : option Z :=
  get_val cls mem entry
          (wrap cls (phdr_addr cls entry e_phoff i + offsetof_p_type cls)) sizeof_Word.

Definition p_offset_at cls mem entry e_phoff (i : nat) : option Z :=
  get_val cls mem entry
          (wrap cls (phdr_addr cls entry e_phoff i + offsetof_p_offset cls)) (sizeof_Off cls).

Definition p_vaddr_at cls mem entry e_phoff (i : nat) : option Z :=
  get_val cls mem entry
          (wrap cls (phdr_addr cls entry e_phoff i + offsetof_p_vaddr cls)) (sizeof_Addr cls).

(** The [i]-th header is a loadable segment at the mapping's own file
    offset. *)
Definition segment_matches cls mem entry e_phoff (i : nat) : Prop :=
  p_type_at cls mem entry e_phoff i = Some PT_LOAD
  /\ p_offset_at cls mem entry e_phoff i = Some (offset entry).

(** Type and file offset of the [i]-th header were read and it is not
    the segment looked for. *)
Definition segment_skipped cls mem entry e_phoff (i : nat) : Prop :=
  exists t o,
    p_type_at cls mem entry e_phoff i = Some t
    /\ p_offset_at cls mem entry e_phoff i = Some o
    /\ ~ (t = PT_LOAD /\ o = offset entry).

(** One of the reads made at the [i]-th header is denied. *)
Definition read_denied cls mem entry e_phoff (i : nat) : Prop :=
  p_type_at cls mem entry e_phoff i = None
  \/ p_offset_at cls mem entry e_phoff i = None
  \/ (segment_matches cls mem entry e_phoff i
      /\ p_vaddr_at cls mem entry e_phoff i = None).

(** The bias the walk over [e_phnum] headers ends with: the virtual
    address of the first matching segment, or 0 when a read is denied or
    the declared count is exhausted. *)
Inductive walk_bias cls mem entry e_phoff (e_phnum : nat) : Z -> Prop :=
| walk_found (i : nat) (p_vaddr : Z) :
    (i < e_phnum)%nat ->
    (forall j, (j < i)%nat -> segment_skipped cls mem entry e_phoff j) ->
    segment_matches cls mem entry e_phoff i ->
    p_vaddr_at cls mem entry e_phoff i = Some p_vaddr ->
    walk_bias cls mem entry e_phoff e_phnum p_vaddr
| walk_denied (i : nat) :
    (i < e_phnum)%nat ->
    (forall j, (j < i)%nat -> segment_skipped cls mem entry e_phoff j) ->
    read_denied cls mem entry e_phoff i ->
    walk_bias cls mem entry e_phoff e_phnum 0
| walk_exhausted :
    (forall j, (j < e_phnum)%nat -> segment_skipped cls mem entry e_phoff j) ->
    walk_bias cls mem entry e_phoff e_phnum 0.

(** The two header fields [read_loadbias] starts from. *)
Definition e_phnum_of cls mem entry : option Z :=
  get_val cls mem entry (wrap cls (start entry + offsetof_e_phnum cls)) sizeof_Half.

Definition e_phoff_of cls mem entry : option Z :=
  get_val cls mem entry (wrap cls (start entry + offsetof_e_phoff cls)) (sizeof_Off cls).

(** ** Step 3 of the lookup, as the specification words it *)

(** The entry at position [it] is not a valid image itself, is not the
    first one, and its predecessor is readable and nothing else, starts
    at a smaller file offset, has the same name and is a valid image. *)
Definition borrows_bias (cls : ElfClass) (mem : Memory) (tbl : list MapEntry)
           (it : nat) (entry : MapEntry) : bool :=
  negb (valid (init_entry cls mem entry))
  && negb (Nat.eqb it 0)
  && match tbl !! (it - 1)%nat with
     | Some prev =>
       (flags prev =? PROT_READ) && (offset prev <? offset entry)
       && String.eqb (name prev) (name entry)
       && valid (init_entry cls mem prev)
     | None => false
     end.

(** The lookup of [find] ends at position [it] of table [d1]: at once in
    the table the call starts with, or in the refreshed table after a
    miss. *)
Definition located (cls : ElfClass) (src : MapsSource) (pc : Z)
           (d d1 : MapData) (it : nat) : Prop :=
  (entries_find pc (entries_ d) = Some it /\ d1 = d)
  \/ (entries_find pc (entries_ d) = None
      /\ (exists ok, ReadMaps cls src d = Some (ok, d1))
      /\ entries_find pc (entries_ d1) = Some it).

(** An entry that is not valid has bias 0: true of every entry the
    parser makes, and kept by [init]. *)
Definition bias_inv (entry : MapEntry) : Prop :=
  valid entry = false -> load_bias entry = 0.

(** ** Malformed address fields *)

(** No number can be converted at the front of [s]: after the blanks
    and an optional sign the input ends, or goes on with a character
    that is not a hexadecimal digit. *)
Definition no_hex_number (s : string) : Prop :=
  match snd (scan_sign (skip_space s)) with
  | EmptyString => True
  | String c _ => hex_digit c = None
  end.

(** The two addresses of the line cannot both be converted: no number
    at the front of the line; or a number, the digits of the start
    address, that is not followed at once by [-]; or no number after
    that [-].  Digits followed by other characters, as in [20zz], are a
    number: the conversion stops after the digits. *)
Definition malformed_address (cls : ElfClass) (line : string) : Prop :=
  no_hex_number line
  \/ exists s rest,
      scan_hex cls line = Some (s, rest)
      /\ match expect "-" rest with
         | Some rest' => no_hex_number rest'
         | None => True
         end.

(** ** Tails of a line *)

(** [suf] is what is left of [s] after some characters at its front. *)
Definition is_suffix (suf s : string) : Prop :=
  exists pre, s = String.append pre suf.

(** ** The conditions [find] tests *)

(** The test [find] makes on the predecessor of an entry before it
    initialises it: readable and nothing else, a smaller file offset,
    the same name. *)
Definition readonly_sibling (prev entry : MapEntry) : bool :=
  (flags prev =? PROT_READ) && (offset prev <? offset entry)
  && String.eqb (name prev) (name entry).

(** Two entries describe the same mapping: they agree on everything
    the parser read from the line. *)
Definition same_mapping (e e' : MapEntry) : Prop :=
  start e = start e' /\ end_ e = end_ e' /\ offset e = offset e'
  /\ name e = name e' /\ flags e = flags e'.

(** ** The part of the image a lookup depends on *)

(** The addresses [init] can read for an entry: those of the mapping,
    and the last eight of the address space, which the gate lets through
    when the end of a field wraps around. *)
Definition may_read (cls : ElfClass) (entry : MapEntry) (a : Z) : Prop :=
  start entry <= a < end_ entry
  \/ ptr_modulus cls - 8 <= a < ptr_modulus cls.

(** Two images hold the same bytes at the addresses in [P]. *)
Definition agree_on (P : Z -> Prop) (mem mem' : Memory) : Prop :=
  forall a, P a -> byte_at mem a = byte_at mem' a.

(** ** Lines in the format of /proc/<PID>/maps *)

(** The character of a digit below 16, in lower case. *)
Definition hex_char (d : Z) : ascii :=
  if d <? 10 then ascii_of_nat (Z.to_nat (48 + d)) else ascii_of_nat (Z.to_nat (87 + d)).

(** A numeral, most significant digit first, and its value in base
    [base]. *)
Fixpoint numeral (ds : list Z) (rest : string) : string :=
  match ds with
  | [] => rest
  | d :: ds' => String (hex_char d) (numeral ds' rest)
  end.

Definition numeral_value (base : Z) (ds : list Z) : Z :=
  fold_left (fun acc d => base * acc + d) ds 0.

(** A non-empty list of digits below [base]. *)
Definition digits_below (base : Z) (ds : list Z) : Prop :=
  ds <> [] /\ Forall (fun d => 0 <= d < base) ds.

(** The line
    [<start>-<end> <p0><p1><p2><p3> <offset> <major>:<minor> <inode> <name>]
    with its newline, the numbers hexadecimal but for the inode. *)
Definition maps_line (start_ end_' : list Z) (p0 p1 p2 p3 : ascii)
           (offset_ major minor inode : list Z) (name_ : string) : string :=
  numeral start_ (String "-"
    (numeral end_' (String " "
      (String p0 (String p1 (String p2 (String p3 (String " "
        (numeral offset_ (String " "
          (numeral major (String ":"
            (numeral minor (String " "
              (numeral inode (String " "
                (String.append name_ (String newline EmptyString)))))))))))))))))).

(** The flags [parse_line] computes from the permission characters. *)
Definition flags_of (p0 p2 : ascii) : Z :=
  Z.lor (if (p0 =? "r")%char then PROT_READ else 0)
        (if (p2 =? "x")%char then PROT_EXEC else 0).

(** What may follow a numeral: nothing, or a character that is neither a
    hexadecimal digit nor the [x] of a prefix. *)
Definition ends_numeral (rest : string) : Prop :=
  match rest with
  | EmptyString => True
  | String c _ =>
    hex_digit c = None /\ (c =? "x")%char = false /\ (c =? "X")%char = false
  end.

(** ** Tables a program can reach *)

(** What holds of every entry in use: the numbers fit [uintptr_t]; an
    entry not yet initialised is readable, not valid and has bias 0; a
    valid entry is readable and initialised; an entry that is not valid
    has bias 0. *)
Definition entry_ok (cls : ElfClass) (e : MapEntry) : Prop :=
  (0 <= start e < ptr_modulus cls)
  /\ (0 <= end_ e < ptr_modulus cls)
  /\ (0 <= offset e < ptr_modulus cls)
  /\ (0 <= load_bias e < ptr_modulus cls)
  /\ (0 <= elf_start_offset e < ptr_modulus cls)
  /\ (init e = false -> Z.land (flags e) PROT_READ <> 0)
  /\ (valid e = true -> init e = true /\ Z.land (flags e) PROT_READ <> 0)
  /\ (valid e = false -> load_bias e = 0).

(** The tables a [MapData] goes through: it is created empty, and
    [find] is the one operation on it. *)
Inductive reachable (cls : ElfClass) : MapData -> Prop :=
| reachable_new : reachable cls (mkMapData [] 0)
| reachable_find d mem src pc want r :
    reachable cls d ->
    find cls mem src pc want d = Some r ->
    reachable cls (found_data r).

(** ** Concrete images and tables used below *)

(** A process image that is zero everywhere. *)
Definition zero_mem : Memory := fun _ => 0.

(** [mem] with the [n]-byte little-endian value [v] written at [addr]. *)
Fixpoint store (addr : Z) (n : nat) (v : Z) (mem : Memory) : Memory :=
  match n with
  | O => mem
  | S k => fun a => if a =? addr then v mod 256
                    else store (addr + 1) k (v / 256) mem a
  end.

(** The four magic bytes written at [addr]. *)
Definition store_magic (addr : Z) (mem : Memory) : Memory :=
  store addr 4 (127 + 256 * (69 + 256 * (76 + 256 * 70))) mem.

(** A 64-bit image at 0x1000: the header says one program header at file
    offset 64, and that header is a loadable segment with file offset
    0x1000 and virtual address 0x1000. *)
Definition split_image : Memory :=
  store_magic 4096
    (store (4096 + 32) 8 64
      (store (4096 + 56) 2 1
        (store (4096 + 64) 4 PT_LOAD
          (store (4096 + 64 + 8) 8 4096
            (store (4096 + 64 + 16) 8 4096 zero_mem))))).

Definition line_ro : string :=
  String.append "1000-2000 r--p 00000000 00:00 0 /lib/x.so" (String newline EmptyString).
Definition line_rx : string :=
  String.append "2000-3000 r-xp 00001000 00:00 0 /lib/x.so" (String newline EmptyString).

(** A source that always lists the two mappings of /lib/x.so. *)
Definition split_source : MapsSource :=
  fun _ => Some (String.append line_ro line_rx).


(** A source that cannot be opened. *)
Definition no_source : MapsSource := fun _ => None.

Definition empty_data : MapData := mkMapData [] 0.

Definition entry_ro : MapEntry := new_MapEntry 4096 8192 0 "/lib/x.so" PROT_READ.
Definition entry_rx : MapEntry :=
  new_MapEntry 8192 12288 4096 "/lib/x.so" (Z.lor PROT_READ PROT_EXEC).

Definition split_data : MapData := mkMapData [entry_ro; entry_rx] 1.

(** A readable mapping that is exactly as long as the magic number. *)
Definition entry_tiny : MapEntry := new_MapEntry 4096 4100 0 "/lib/x.so" PROT_READ.

(** An image whose header is at 0x1000 and in which the mapping's own
    loadable segment, the second of two, has virtual address 0x5000. *)
Definition biased_image : Memory :=
  store_magic 4096
    (store (4096 + 32) 8 64
      (store (4096 + 56) 2 2
        (store (4096 + 64) 4 6
          (store (4096 + 64 + 8) 8 64
            (store (4096 + 120) 4 PT_LOAD
              (store (4096 + 120 + 8) 8 0
                (store (4096 + 120 + 16) 8 20480 zero_mem))))))).

(** An image whose header sends the program-header table to the last
    four bytes of the address space. *)
Definition wild_image : Memory :=
  store_magic 4096
    (store (4096 + 32) 8 (2 ^ 64 - 4 - 4096)
      (store (4096 + 56) 2 1
        (store (2 ^ 64 - 4) 4 305419896 zero_mem))).

(** The read-only mapping after a lookup initialised it against
    [biased_image]: valid, with bias 0x5000. *)
Definition entry_ro_cached : MapEntry := init_entry ELFCLASS64 biased_image entry_ro.

(** An execute-only mapping of the same image. *)
Definition line_xo : string :=
  String.append "1000-2000 --xp 00000000 00:00 0 /lib/x.so" (String newline EmptyString).
Definition entry_xo : MapEntry :=
  set_valid false (set_init true (set_load_bias 0
    (new_MapEntry 4096 8192 0 "/lib/x.so" PROT_EXEC))).

(** * Properties *)

(** ** Arithmetic on [uintptr_t] *)

Section WordArith.
Variable cls : ElfClass.

Lemma ptr_modulus_pos : 0 < ptr_modulus cls.
Proof. destruct cls; reflexivity. Qed.

Lemma wrap_range (z : Z) : 0 <= wrap cls z < ptr_modulus cls.
Proof. apply Z.mod_pos_bound, ptr_modulus_pos. Qed.

Lemma wrap_small (z : Z) : 0 <= z < ptr_modulus cls -> wrap cls z = z.
Proof. apply Z.mod_small. Qed.

Lemma wrap_add_l (a b : Z) : wrap cls (wrap cls a + b) = wrap cls (a + b).
Proof. unfold wrap. apply Zplus_mod_idemp_l. Qed.

Lemma phdr_addr_0 (entry : MapEntry) (e_phoff : Z) :
  phdr_addr cls entry e_phoff 0 = wrap cls (start entry + e_phoff).
Proof. unfold phdr_addr. f_equal. simpl. lia. Qed.

Lemma phdr_addr_S (entry : MapEntry) (e_phoff : Z) (i : nat) :
  wrap cls (phdr_addr cls entry e_phoff i + sizeof_Phdr cls)
  = phdr_addr cls entry e_phoff (S i).
Proof. unfold phdr_addr. rewrite wrap_add_l. f_equal. lia. Qed.
End WordArith.

(** ** The bounds gate *)

(** What a granted read guarantees, with the end of the range as the
    code computes it. *)
Lemma get_val_Some cls mem entry addr size v :
  get_val cls mem entry addr size = Some v <->
  Z.land (flags entry) PROT_READ <> 0
  /\ start entry <= addr
  /\ wrap cls (addr + size) <= end_ entry
  /\ Z.land addr (size - 1) = 0
  /\ v = load cls mem addr (Z.to_nat size).
Proof.
  unfold get_val.
  destruct (Z.eqb_spec (Z.land (flags entry) PROT_READ) 0) as [Hr|Hr];
    destruct (Z.ltb_spec addr (start entry));
    destruct (Z.gtb_spec (wrap cls (addr + size)) (end_ entry));
    destruct (Z.eqb_spec (Z.land addr (size - 1)) 0);
    simpl; split; try discriminate; try (intros (?&?&?&?&?); lia).
  - intros [= <-]. repeat split; auto; lia.
  - intros (_&_&_&_&->). reflexivity.
Qed.

(** A denied read does not depend on the image: nothing was read. *)
Lemma get_val_denied_any_image cls mem mem' entry addr size :
  get_val cls mem entry addr size = None ->
  get_val cls mem' entry addr size = None.
Proof.
  unfold get_val.
  destruct (_ || _ || _); [reflexivity|].
  destruct (negb _); [reflexivity|discriminate].
Qed.

(** The three denials the code does make. *)
Lemma get_val_denied cls mem entry addr size :
  Z.land (flags entry) PROT_READ = 0
  \/ addr < start entry
  \/ wrap cls (addr + size) > end_ entry
  \/ Z.land addr (size - 1) <> 0 ->
  get_val cls mem entry addr size = None.
Proof.
  intros H.
  destruct (get_val cls mem entry addr size) as [v|] eqn:E; [|reflexivity].
  apply get_val_Some in E. lia.
Qed.

(** C1.  The gate compares [addr + sizeof(T)] after the sum wrapped
    around: for the readable entry 0x1000-0x2000 and the aligned address
    2^64 - 8, the eight bytes at that address are read and returned for
    every image, although the exact sum lies beyond the end of the entry.
    [read_loadbias] gets there: with the image [wild_image] the header
    field [e_phoff] passes the gate and the type of the first program
    header is read from the last four bytes of the address space. *)
Theorem get_val_reads_past_end_on_wrap :
  (forall mem : Memory,
      get_val ELFCLASS64 mem entry_ro (2 ^ 64 - 8) 8
      = Some (load ELFCLASS64 mem (2 ^ 64 - 8) 8))
  /\ (2 ^ 64 - 8) + 8 > end_ entry_ro
  /\ e_phoff_of ELFCLASS64 wild_image entry_ro = Some (2 ^ 64 - 4 - 4096)
  /\ p_type_at ELFCLASS64 wild_image entry_ro (2 ^ 64 - 4 - 4096) 0
     = Some 305419896
  /\ phdr_addr ELFCLASS64 entry_ro (2 ^ 64 - 4 - 4096) 0 + sizeof_Word
     > end_ entry_ro.
Proof.
  split; [intros mem; reflexivity|].
  repeat split; vm_compute; reflexivity.
Qed.

(** ** Validation and initialisation *)

(** [read_loadbias] looks at the entry only through fields it does not
    write. *)
Lemma phdr_loop_set_load_bias cls mem entry b n addr :
  phdr_loop cls mem (set_load_bias b entry) n addr = phdr_loop cls mem entry n addr.
Proof.
  revert addr. induction n as [|n IH]; intros addr; [reflexivity|].
  cbn [phdr_loop]. rewrite IH. reflexivity.
Qed.

Lemma read_loadbias_only_bias cls mem entry :
  read_loadbias cls mem entry
  = set_load_bias (load_bias (read_loadbias cls mem entry)) entry.
Proof.
  unfold read_loadbias.
  destruct (get_val _ _ _ _ sizeof_Half); [|reflexivity].
  destruct (get_val _ _ _ _ (sizeof_Off cls)); reflexivity.
Qed.

Lemma read_loadbias_valid cls mem entry :
  valid (read_loadbias cls mem entry) = valid entry.
Proof. rewrite read_loadbias_only_bias. reflexivity. Qed.

Lemma read_loadbias_init cls mem entry :
  init (read_loadbias cls mem entry) = init entry.
Proof. rewrite read_loadbias_only_bias. reflexivity. Qed.

(** [valid_elf] as a condition on the entry and the image. *)
Lemma valid_elf_true cls mem entry :
  valid_elf cls mem entry = true <->
  start entry + SELFMAG < ptr_modulus cls
  /\ start entry + SELFMAG < end_ entry
  /\ bytes_at cls mem (start entry) (Z.to_nat SELFMAG) = ELFMAG.
Proof.
  unfold valid_elf.
  destruct (Z.leb_spec (ptr_modulus cls) (start entry + SELFMAG));
    destruct (Z.geb_spec (start entry + SELFMAG) (end_ entry)); simpl;
    try (split; [discriminate | lia]).
  rewrite bool_decide_eq_true. split; [intros ?; repeat split; auto; lia | tauto].
Qed.

(** An entry not yet initialised becomes valid exactly when [valid_elf]
    holds of it. *)
Lemma init_entry_valid cls mem entry :
  init entry = false ->
  valid (init_entry cls mem entry) = true <->
  valid entry = true \/ valid_elf cls mem entry = true.
Proof.
  intros Hi. unfold init_entry. rewrite Hi.
  change (valid_elf cls mem (set_init true entry)) with (valid_elf cls mem entry).
  destruct (valid_elf cls mem entry).
  - rewrite read_loadbias_valid. simpl. tauto.
  - simpl. split; [tauto | intros [?|?]; [assumption | discriminate]].
Qed.

(** The magic number does not match: the entry is not marked valid and
    its bias is not written, so a new entry keeps bias 0. *)
Lemma init_entry_no_magic cls mem entry :
  valid entry = false ->
  bytes_at cls mem (start entry) (Z.to_nat SELFMAG) <> ELFMAG ->
  valid (init_entry cls mem entry) = false
  /\ load_bias (init_entry cls mem entry) = load_bias entry.
Proof.
  intros Hv Hm. unfold init_entry.
  destruct (init entry); [auto|].
  destruct (valid_elf cls mem (set_init true entry)) eqn:E; [|auto].
  apply valid_elf_true in E. simpl in E. tauto.
Qed.

Lemma init_entry_bias_inv cls mem entry :
  bias_inv entry -> bias_inv (init_entry cls mem entry).
Proof.
  unfold bias_inv, init_entry. intros H.
  destruct (init entry); [assumption|].
  destruct (valid_elf cls mem (set_init true entry)).
  - rewrite read_loadbias_valid. discriminate.
  - exact H.
Qed.

Lemma init_entry_init cls mem entry :
  init (init_entry cls mem entry) = true.
Proof.
  unfold init_entry. destruct (init entry) eqn:Hi; [assumption|].
  destruct (valid_elf cls mem (set_init true entry)); [|reflexivity].
  rewrite read_loadbias_init. reflexivity.
Qed.

Lemma init_entry_idem cls mem entry :
  init_entry cls mem (init_entry cls mem entry) = init_entry cls mem entry.
Proof. unfold init_entry at 1. rewrite init_entry_init. reflexivity. Qed.

(** The fields [init] never writes. *)
Lemma init_entry_frame cls mem entry :
  start (init_entry cls mem entry) = start entry
  /\ end_ (init_entry cls mem entry) = end_ entry
  /\ offset (init_entry cls mem entry) = offset entry
  /\ name (init_entry cls mem entry) = name entry
  /\ flags (init_entry cls mem entry) = flags entry
  /\ elf_start_offset (init_entry cls mem entry) = elf_start_offset entry.
Proof.
  unfold init_entry. destruct (init entry); [tauto|].
  destruct (valid_elf cls mem (set_init true entry)); [|simpl; tauto].
  rewrite read_loadbias_only_bias. simpl. tauto.
Qed.

(** ** The load bias *)

Lemma phdr_loop_walk cls mem entry e_phoff :
  forall (n k : nat),
    (forall j, (j < k)%nat -> segment_skipped cls mem entry e_phoff j) ->
    walk_bias cls mem entry e_phoff (k + n)
              (phdr_loop cls mem entry n (phdr_addr cls entry e_phoff k)).
Proof.
  induction n as [|n IH]; intros k Hk.
  - rewrite Nat.add_0_r. apply walk_exhausted, Hk.
  - cbn [phdr_loop].
    fold (p_type_at cls mem entry e_phoff k).
    fold (p_offset_at cls mem entry e_phoff k).
    fold (p_vaddr_at cls mem entry e_phoff k).
    destruct (p_type_at cls mem entry e_phoff k) as [t|] eqn:Et;
      [|apply (walk_denied _ _ _ _ _ k); [lia | exact Hk | left; exact Et]].
    destruct (p_offset_at cls mem entry e_phoff k) as [o|] eqn:Eo;
      [|apply (walk_denied _ _ _ _ _ k); [lia | exact Hk | right; left; exact Eo]].
    destruct ((t =? PT_LOAD) && (o =? offset entry)) eqn:Ec.
    + apply andb_true_iff in Ec as [->%Z.eqb_eq ->%Z.eqb_eq].
      destruct (p_vaddr_at cls mem entry e_phoff k) as [v|] eqn:Ev.
      * apply (walk_found _ _ _ _ _ k); [lia | exact Hk | split; assumption | exact Ev].
      * apply (walk_denied _ _ _ _ _ k); [lia | exact Hk |].
        right; right. split; [split; assumption | exact Ev].
    + rewrite phdr_addr_S, <- Nat.add_succ_comm. apply IH.
      intros j Hj. destruct (decide (j = k)) as [->|Hne]; [|apply Hk; lia].
      exists t, o. repeat split; try assumption.
      intros [-> ->]. rewrite !Z.eqb_refl in Ec. discriminate.
Qed.

(** The walk has one outcome. *)
Lemma walk_bias_functional cls mem entry e_phoff n b1 b2 :
  walk_bias cls mem entry e_phoff n b1 ->
  walk_bias cls mem entry e_phoff n b2 ->
  b1 = b2.
Proof.
  assert (Hskip : forall i, segment_skipped cls mem entry e_phoff i ->
                            segment_matches cls mem entry e_phoff i -> False).
  { intros i (t & o & Ht & Ho & Hn) [Ht' Ho']. apply Hn. split; congruence. }
  assert (Hden : forall i, segment_skipped cls mem entry e_phoff i ->
                           read_denied cls mem entry e_phoff i -> False).
  { intros i Hs [Hd|[Hd|[Hd _]]]; [| |eauto];
      destruct Hs as (t & o & Ht & Ho & _); congruence. }
  assert (Hmd : forall i v, segment_matches cls mem entry e_phoff i ->
                            p_vaddr_at cls mem entry e_phoff i = Some v ->
                            read_denied cls mem entry e_phoff i -> False).
  { intros i v [Ht Ho] Hv [Hd|[Hd|[_ Hd]]]; congruence. }
  intros [i v Hi Hb Hm Hv | i Hi Hb Hd | Hall] [i' v' Hi' Hb' Hm' Hv' | i' Hi' Hb' Hd' | Hall'];
    try reflexivity.
  - destruct (Nat.lt_trichotomy i i') as [Hlt|[->|Hlt]].
    + exfalso; eauto.
    + congruence.
    + exfalso; eauto.
  - exfalso. destruct (Nat.lt_trichotomy i i') as [Hlt|[->|Hlt]]; eauto.
  - exfalso; eauto.
  - exfalso. destruct (Nat.lt_trichotomy i i') as [Hlt|[->|Hlt]]; eauto.
  - exfalso; eauto.
Qed.

Lemma read_loadbias_walk cls mem entry :
  match e_phnum_of cls mem entry, e_phoff_of cls mem entry with
  | Some e_phnum, Some e_phoff =>
    walk_bias cls mem entry e_phoff (Z.to_nat e_phnum)
              (load_bias (read_loadbias cls mem entry))
  | _, _ => load_bias (read_loadbias cls mem entry) = 0
  end.
Proof.
  unfold read_loadbias, e_phnum_of, e_phoff_of.
  change (get_val cls mem (set_load_bias 0 entry)) with (get_val cls mem entry).
  change (start (set_load_bias 0 entry)) with (start entry).
  destruct (get_val cls mem entry _ sizeof_Half) as [n|]; [|reflexivity].
  destruct (get_val cls mem entry _ (sizeof_Off cls)) as [off|]; [|reflexivity].
  cbn [load_bias set_load_bias].
  rewrite phdr_loop_set_load_bias, <- phdr_addr_0.
  apply (phdr_loop_walk cls mem entry off (Z.to_nat n) 0). intros j Hj. lia.
Qed.

(** C4.  [read_loadbias] writes nothing but the bias.  When the gate
    denies [e_phnum] or [e_phoff] the bias is 0.  Otherwise the bias is
    the outcome of the walk over the declared number of program headers,
    in order: the virtual address of the first header that is a loadable
    segment at the mapping's own file offset, or 0 when one of the reads
    on the way is denied or no header within the count matches. *)
Theorem read_loadbias_first_matching_segment cls mem entry :
  read_loadbias cls mem entry
  = set_load_bias (load_bias (read_loadbias cls mem entry)) entry
  /\ match e_phnum_of cls mem entry, e_phoff_of cls mem entry with
     | Some e_phnum, Some e_phoff =>
       walk_bias cls mem entry e_phoff (Z.to_nat e_phnum)
                 (load_bias (read_loadbias cls mem entry))
     | _, _ => load_bias (read_loadbias cls mem entry) = 0
     end.
Proof. split; [apply read_loadbias_only_bias | apply read_loadbias_walk]. Qed.

(** What [init] computes for an entry it validates is what
    [read_loadbias] computes for the entry itself. *)
Lemma get_val_ext cls mem e1 e2 addr size :
  flags e1 = flags e2 -> start e1 = start e2 -> end_ e1 = end_ e2 ->
  get_val cls mem e1 addr size = get_val cls mem e2 addr size.
Proof. intros Hf Hs He. unfold get_val. rewrite Hf, Hs, He. reflexivity. Qed.

Lemma phdr_loop_ext cls mem e1 e2 n addr :
  flags e1 = flags e2 -> start e1 = start e2 -> end_ e1 = end_ e2 ->
  offset e1 = offset e2 ->
  phdr_loop cls mem e1 n addr = phdr_loop cls mem e2 n addr.
Proof.
  intros Hf Hs He Ho. revert addr.
  induction n as [|n IH]; intros addr; [reflexivity|].
  cbn [phdr_loop].
  rewrite !(get_val_ext cls mem e1 e2) by assumption.
  rewrite Ho, IH. reflexivity.
Qed.

Lemma read_loadbias_ext cls mem e1 e2 :
  flags e1 = flags e2 -> start e1 = start e2 -> end_ e1 = end_ e2 ->
  offset e1 = offset e2 ->
  load_bias (read_loadbias cls mem e1) = load_bias (read_loadbias cls mem e2).
Proof.
  intros Hf Hs He Ho. unfold read_loadbias.
  change (start (set_load_bias 0 e1)) with (start e1).
  change (start (set_load_bias 0 e2)) with (start e2).
  rewrite !(get_val_ext cls mem (set_load_bias 0 e1) (set_load_bias 0 e2)) by assumption.
  rewrite Hs.
  destruct (get_val _ _ _ _ sizeof_Half); [|reflexivity].
  destruct (get_val _ _ _ _ (sizeof_Off cls)); [|reflexivity].
  cbn [load_bias set_load_bias].
  apply phdr_loop_ext; assumption.
Qed.

Lemma init_entry_valid_elf cls mem entry :
  init entry = false ->
  valid_elf cls mem entry = true ->
  valid (init_entry cls mem entry) = true
  /\ load_bias (init_entry cls mem entry) = load_bias (read_loadbias cls mem entry).
Proof.
  intros Hi Hv. unfold init_entry. rewrite Hi.
  change (valid_elf cls mem (set_init true entry)) with (valid_elf cls mem entry).
  rewrite Hv, read_loadbias_valid. split; [reflexivity|].
  apply read_loadbias_ext; reflexivity.
Qed.

(** ** The table *)

Lemma entries_find_Some probe tbl it :
  entries_find probe tbl = Some it ->
  exists entry, tbl !! it = Some entry /\ contains probe entry = true.
Proof.
  revert it. induction tbl as [|e tbl IH]; intros it; [discriminate|].
  simpl. destruct (contains probe e) eqn:Ec.
  - intros [= <-]. exists e. split; [reflexivity | assumption].
  - destruct (entries_find probe tbl) as [k|]; [|discriminate].
    intros [= <-]. apply (IH k). reflexivity.
Qed.

Lemma entries_find_None probe tbl :
  entries_find probe tbl = None <->
  forall i entry, tbl !! i = Some entry -> contains probe entry = false.
Proof.
  induction tbl as [|e tbl IH]; simpl.
  - split; [intros _ i entry; discriminate | reflexivity].
  - destruct (contains probe e) eqn:Ec.
    + split; [discriminate|]. intros H. specialize (H O e eq_refl). congruence.
    + destruct (entries_find probe tbl) as [k|] eqn:Ek; simpl.
      * split; [discriminate|]. intros H.
        assert (Some k = None) as Hk; [|discriminate Hk].
        apply IH. intros i entry Hi. apply (H (S i) entry Hi).
      * split; [|reflexivity]. intros _ [|i] entry.
        -- intros [= <-]. assumption.
        -- apply IH. reflexivity.
Qed.

(** The probe lies in exactly one entry: the lookup ends there. *)
Lemma entries_find_unique probe tbl it entry :
  tbl !! it = Some entry ->
  contains probe entry = true ->
  (forall j e, tbl !! j = Some e -> contains probe e = true -> j = it) ->
  entries_find probe tbl = Some it.
Proof.
  intros Hit Hc Huniq.
  destruct (entries_find probe tbl) as [k|] eqn:Ek.
  - destruct (entries_find_Some _ _ _ Ek) as (e & He & Hce).
    f_equal. eauto.
  - pose proof (proj1 (entries_find_None probe tbl) Ek it entry Hit). congruence.
Qed.

(** An entry of the table with a non-empty range is found by its own
    start address. *)
Lemma entries_find_same_start probe tbl entry :
  entry ∈ tbl -> start entry = probe -> start entry < end_ entry ->
  exists it, entries_find probe tbl = Some it.
Proof.
  intros Hin Hs Hlt.
  destruct (entries_find probe tbl) as [k|] eqn:Ek; [eauto|].
  apply list_elem_of_lookup in Hin as [i Hi].
  pose proof (proj1 (entries_find_None probe tbl) Ek i entry Hi) as Hc.
  unfold contains in Hc. apply andb_false_iff in Hc as [Hc|Hc].
  - apply Z.leb_gt in Hc. lia.
  - apply Z.ltb_ge in Hc. lia.
Qed.

Lemma entries_insert_sublist entry tbl :
  tbl `sublist_of` entries_insert entry tbl.
Proof.
  induction tbl as [|e tbl IH]; simpl.
  - apply sublist_cons, sublist_nil.
  - destruct (start entry <? start e).
    + apply sublist_cons. reflexivity.
    + apply sublist_skip, IH.
Qed.

Lemma entries_insert_elem entry tbl :
  entry ∈ entries_insert entry tbl.
Proof.
  induction tbl as [|e tbl IH]; simpl.
  - apply list_elem_of_singleton. reflexivity.
  - destruct (start entry <? start e).
    + apply elem_of_cons. left. reflexivity.
    + apply elem_of_cons. right. exact IH.
Qed.

(** ** Lookup *)

(** Case analysis on everything the goal matches on. *)
Ltac destruct_matches :=
  repeat match goal with
         | |- context [match ?x with _ => _ end] => destruct x eqn:?
         end.

Lemma find_located cls mem src pc want d d1 it :
  located cls src pc d d1 it ->
  find cls mem src pc want d = Some (find_at cls mem pc want it d1).
Proof.
  unfold find. intros [[Hf ->] | (Hf & [ok Hr] & Hf1)].
  - rewrite Hf. cbv beta iota zeta. rewrite Hf. reflexivity.
  - rewrite Hf, Hr. cbn [option_map snd]. rewrite Hf1. reflexivity.
Qed.

Lemma find_at_refreshes cls mem pc want it d :
  refreshes (found_data (find_at cls mem pc want it d)) = refreshes d.
Proof.
  unfold find_at.
  destruct_matches; reflexivity.
Qed.

(** No relative pc is asked for: the entry is initialised and nothing
    else happens. *)
Lemma find_at_null cls mem pc it d entry :
  entries_ d !! it = Some entry ->
  find_at cls mem pc false it d
  = mkFound (Some it) None
            (with_entries (<[it := init_entry cls mem entry]> (entries_ d)) d).
Proof. intros H. unfold find_at. rewrite H. reflexivity. Qed.

(** Step 3 applies. *)
Lemma find_at_borrow cls mem pc it d entry prev :
  entries_ d !! it = Some entry ->
  valid (init_entry cls mem entry) = false ->
  it <> 0%nat ->
  entries_ d !! (it - 1)%nat = Some prev ->
  flags prev = PROT_READ ->
  offset prev < offset entry ->
  name prev = name entry ->
  valid (init_entry cls mem prev) = true ->
  find_at cls mem pc true it d
  = mkFound (Some it)
            (Some (wrap cls (pc - start entry + offset entry
                             + load_bias (init_entry cls mem prev))))
            (with_entries
               (<[it := set_elf_start_offset (offset prev) (init_entry cls mem entry)]>
                  (<[(it - 1)%nat := init_entry cls mem prev]>
                     (<[it := init_entry cls mem entry]> (entries_ d))))
               d).
Proof.
  intros Hit Hv Hne Hprev Hfl Hoff Hname Hpv.
  destruct (init_entry_frame cls mem entry) as (Hs & _ & Ho & Hn & _ & _).
  destruct (init_entry_frame cls mem prev) as (_ & _ & Hpo & _ & _ & _).
  unfold find_at. rewrite Hit. cbv zeta.
  rewrite Hv, Hs, Ho, Hn.
  rewrite list_lookup_insert_ne by lia. rewrite Hprev, Hpo, Hpv.
  apply Nat.eqb_neq in Hne. rewrite Hne.
  apply Z.eqb_eq in Hfl. rewrite Hfl.
  apply Z.ltb_lt in Hoff. rewrite Hoff.
  apply String.eqb_eq in Hname. rewrite Hname.
  reflexivity.
Qed.

(** Step 3 does not apply: the entry's own bias is used. *)
Lemma find_at_own cls mem pc it d entry :
  entries_ d !! it = Some entry ->
  borrows_bias cls mem (entries_ d) it entry = false ->
  exists tbl,
    find_at cls mem pc true it d
    = mkFound (Some it)
              (Some (wrap cls (pc - start entry + offset entry
                               + load_bias (init_entry cls mem entry))))
              (with_entries tbl d)
    /\ tbl !! it = Some (init_entry cls mem entry).
Proof.
  intros Hit Hb.
  destruct (init_entry_frame cls mem entry) as (Hs & _ & Ho & Hn & _ & _).
  pose proof (lookup_lt_Some _ _ _ Hit) as Hlen.
  unfold find_at. rewrite Hit. cbv zeta.
  rewrite Hs, Ho, Hn.
  unfold borrows_bias in Hb.
  destruct (negb (valid (init_entry cls mem entry)) && negb (Nat.eqb it 0)) eqn:Eg;
    [|eexists; split; [reflexivity | apply list_lookup_insert_eq; assumption]].
  apply andb_true_iff in Eg as [_ Hne].
  apply negb_true_iff, Nat.eqb_neq in Hne.
  rewrite list_lookup_insert_ne by lia.
  simpl in Hb.
  destruct (entries_ d !! (it - 1)%nat) as [prev|];
    [|eexists; split; [reflexivity | apply list_lookup_insert_eq; assumption]].
  destruct ((flags prev =? PROT_READ) && (offset prev <? offset entry)
            && String.eqb (name prev) (name entry));
    [|eexists; split; [reflexivity | apply list_lookup_insert_eq; assumption]].
  simpl in Hb. rewrite Hb.
  eexists; split; [reflexivity|].
  rewrite list_lookup_insert_ne by lia.
  apply list_lookup_insert_eq; assumption.
Qed.

(** C2.  When [pc] lies in exactly one entry of the table, [find]
    returns that entry without refreshing the table; when a relative pc
    is asked for and step 3 does not apply, the value stored is
    [pc - start + offset + load_bias] in [uintptr_t], with the bias the
    entry has after [init], and that bias is 0 when the entry is not
    valid. *)
Theorem find_returns_containing_entry cls mem src pc want d it entry :
  entries_ d !! it = Some entry ->
  contains pc entry = true ->
  (forall j e, entries_ d !! j = Some e -> contains pc e = true -> j = it) ->
  bias_inv entry ->
  exists r,
    find cls mem src pc want d = Some r
    /\ found_entry r = Some it
    /\ refreshes (found_data r) = refreshes d
    /\ (want = true ->
        borrows_bias cls mem (entries_ d) it entry = false ->
        found_rel_pc r
        = Some (wrap cls (pc - start entry + offset entry
                          + load_bias (init_entry cls mem entry)))
        /\ entries_ (found_data r) !! it = Some (init_entry cls mem entry)
        /\ (valid (init_entry cls mem entry) = false ->
            load_bias (init_entry cls mem entry) = 0)).
Proof.
  intros Hit Hc Huniq Hinv.
  pose proof (entries_find_unique pc _ it entry Hit Hc Huniq) as Hf.
  assert (Hloc : located cls src pc d d it) by (left; split; [assumption | reflexivity]).
  rewrite (find_located cls mem src pc want d d it Hloc).
  eexists. split; [reflexivity|].
  split.
  { unfold find_at. rewrite Hit. destruct_matches; reflexivity. }
  split; [apply find_at_refreshes|].
  intros -> Hb.
  destruct (find_at_own cls mem pc it d entry Hit Hb) as (tbl & -> & Htbl).
  simpl. repeat split; [assumption|].
  apply init_entry_bias_inv, Hinv.
Qed.


(** C10.  With a null [rel_pc], [find] returns the entry that contains
    [pc] and the table differs from the one it searched only in that
    this entry is initialised: every other entry, the predecessor
    included, is as it was, and [elf_start_offset] keeps its value. *)
Theorem find_without_rel_pc_only_inits cls mem src pc d d1 it entry :
  located cls src pc d d1 it ->
  entries_ d1 !! it = Some entry ->
  find cls mem src pc false d
  = Some (mkFound (Some it) None
                  (with_entries (<[it := init_entry cls mem entry]> (entries_ d1)) d1))
  /\ elf_start_offset (init_entry cls mem entry) = elf_start_offset entry
  /\ (forall j, j <> it ->
                (<[it := init_entry cls mem entry]> (entries_ d1)) !! j
                = entries_ d1 !! j).
Proof.
  intros Hloc Hit.
  rewrite (find_located cls mem src pc false d d1 it Hloc).
  rewrite (find_at_null cls mem pc it d1 entry Hit).
  split; [reflexivity|]. split.
  - apply init_entry_frame.
  - intros j Hj. apply list_lookup_insert_ne. auto.
Qed.

(** ** Refreshing *)

Lemma ReadMaps_refreshes cls src d ok d1 :
  ReadMaps cls src d = Some (ok, d1) -> refreshes d1 = S (refreshes d).
Proof.
  unfold ReadMaps. destruct (src (refreshes d)) as [text|].
  - destruct (ReadMaps_loop _ _ _) as [[ok' tbl]|]; [|discriminate].
    intros [= _ <-]. reflexivity.
  - intros [= _ <-]. reflexivity.
Qed.

(** C7.  [pc] lies in no entry of the table and the refresh has a
    defined result: [find] opens the mapping source exactly once and
    looks [pc] up once more in the refreshed table; when it is still in
    no entry the result is the null pointer, nothing is stored through
    [rel_pc], and the table is the refreshed one. *)
Theorem find_miss_refreshes_once cls mem src pc want d ok d1 :
  entries_find pc (entries_ d) = None ->
  ReadMaps cls src d = Some (ok, d1) ->
  exists r,
    find cls mem src pc want d = Some r
    /\ refreshes (found_data r) = S (refreshes d)
    /\ (entries_find pc (entries_ d1) = None -> r = mkFound None None d1)
    /\ (forall it, entries_find pc (entries_ d1) = Some it ->
                   r = find_at cls mem pc want it d1).
Proof.
  intros Hmiss Hread.
  pose proof (ReadMaps_refreshes _ _ _ _ _ Hread) as Hn.
  unfold find. rewrite Hmiss, Hread. simpl.
  destruct (entries_find pc (entries_ d1)) as [it|] eqn:E.
  - eexists. split; [reflexivity|].
    split; [rewrite find_at_refreshes; assumption|].
    split; [discriminate|]. intros it' [= <-]. reflexivity.
  - eexists. split; [reflexivity|].
    split; [assumption|]. split; [reflexivity | discriminate].
Qed.

Lemma ReadMaps_loop_sublist cls lines :
  forall tbl ok tbl',
    ReadMaps_loop cls lines tbl = Some (ok, tbl') -> tbl `sublist_of` tbl'.
Proof.
  induction lines as [|line lines IH]; intros tbl ok tbl'; simpl.
  - intros [= _ <-]. reflexivity.
  - destruct (parse_line cls line) as [|entry|]; [|..|discriminate].
    + intros [= _ <-]. reflexivity.
    + destruct (entries_find (start entry) tbl); intros H.
      * eapply IH, H.
      * etransitivity; [apply (entries_insert_sublist entry) | eapply IH, H].
Qed.


(** C9.  A line of the refresh parses to a mapping whose start address
    is the start address of an entry already in the table: the line
    changes nothing, the loop goes on with the table as it was, and
    whatever the rest of the refresh does, the entries the table had are
    all still in it, in order and unchanged, cached state included. *)
Theorem refresh_keeps_known_entry cls line lines tbl entry known :
  parse_line cls line = ParseEntry entry ->
  known ∈ tbl ->
  start known = start entry ->
  start known < end_ known ->
  ReadMaps_loop cls (line :: lines) tbl = ReadMaps_loop cls lines tbl
  /\ (forall ok tbl',
         ReadMaps_loop cls (line :: lines) tbl = Some (ok, tbl') ->
         tbl `sublist_of` tbl' /\ known ∈ tbl').
Proof.
  intros Hp Hin Hs Hlt.
  destruct (entries_find_same_start (start entry) tbl known Hin Hs Hlt) as [it Hit].
  assert (Heq : ReadMaps_loop cls (line :: lines) tbl = ReadMaps_loop cls lines tbl).
  { simpl. rewrite Hp, Hit. reflexivity. }
  split; [exact Heq|].
  intros ok tbl' H.
  pose proof (ReadMaps_loop_sublist cls _ _ _ _ H) as Hsub.
  split; [exact Hsub|].
  eapply sublist_submseteq, elem_of_submseteq in Hsub; eassumption.
Qed.

(** ** Entries made by the parser *)

Lemma parse_line_fresh cls line entry :
  parse_line cls line = ParseEntry entry ->
  load_bias entry = 0 /\ valid entry = false /\ elf_start_offset entry = 0.
Proof.
  unfold parse_line.
  destruct (sc_ret _ <? 2); [discriminate|].
  destruct (sc_start _); [|discriminate].
  destruct (sc_end _); [|discriminate].
  destruct (sc_permissions _); [|discriminate].
  destruct (sc_offset _); [|discriminate].
  destruct (sc_name_pos _); [|discriminate].
  destruct (permissions_at _ 0); [|discriminate].
  destruct (permissions_at _ 2); [|discriminate].
  destruct (Z.land _ PROT_READ =? 0); intros [= <-]; simpl; auto.
Qed.

(** The line quoted in the source as the format of /proc/<PID>/maps. *)
Example parse_line_libcomposer :
  parse_line ELFCLASS32
    (String.append
       "6f000000-6f01e000 rwxp 00000000 00:0c 16389419   /system/lib/libcomposer.so"
       (String newline EmptyString))
  = ParseEntry
      (new_MapEntry 1862270976 1862393856 0 "/system/lib/libcomposer.so"
                    (Z.lor PROT_READ PROT_EXEC)).
Proof. vm_compute. reflexivity. Qed.

(** An anonymous mapping has the empty name, and an unreadable one is
    made initialised and not valid. *)
Example parse_line_anonymous_unreadable :
  parse_line ELFCLASS64
    (String.append "7ffc000-7ffd000 ---p 00000000 00:00 0 " (String newline EmptyString))
  = ParseEntry
      (set_init true (new_MapEntry 134201344 134205440 0 "" 0)).
Proof. vm_compute. reflexivity. Qed.

Lemma entries_insert_Forall (P : MapEntry -> Prop) entry tbl :
  P entry -> Forall P tbl -> Forall P (entries_insert entry tbl).
Proof.
  intros He. induction 1 as [|e tbl Hx Htbl IH]; simpl.
  - repeat constructor. assumption.
  - destruct (start entry <? start e); repeat constructor; assumption.
Qed.

(** Every table reached from the empty one by refreshes and lookups
    satisfies [bias_inv]. *)
Lemma ReadMaps_loop_bias_inv cls lines :
  forall tbl ok tbl',
    Forall bias_inv tbl ->
    ReadMaps_loop cls lines tbl = Some (ok, tbl') ->
    Forall bias_inv tbl'.
Proof.
  induction lines as [|line lines IH]; intros tbl ok tbl' Htbl; simpl.
  - intros [= _ <-]. assumption.
  - destruct (parse_line cls line) as [|entry|] eqn:Hp; [|..|discriminate].
    + intros [= _ <-]. assumption.
    + destruct (entries_find (start entry) tbl); [apply IH; assumption|].
      apply IH. apply entries_insert_Forall; [|assumption].
      intros _. apply (parse_line_fresh cls line entry Hp).
Qed.

Lemma ReadMaps_bias_inv cls src d ok d1 :
  Forall bias_inv (entries_ d) ->
  ReadMaps cls src d = Some (ok, d1) ->
  Forall bias_inv (entries_ d1).
Proof.
  intros Hd. unfold ReadMaps. destruct (src (refreshes d)) as [text|].
  - destruct (ReadMaps_loop _ _ _) as [[ok' tbl]|] eqn:E; [|discriminate].
    intros [= _ <-]. simpl. eapply ReadMaps_loop_bias_inv; [|exact E]. assumption.
  - intros [= _ <-]. assumption.
Qed.

Lemma find_at_bias_inv cls mem pc want it d :
  Forall bias_inv (entries_ d) ->
  Forall bias_inv (entries_ (found_data (find_at cls mem pc want it d))).
Proof.
  intros Hd. unfold find_at.
  destruct (entries_ d !! it) as [entry|] eqn:Hit; [|assumption].
  assert (He : bias_inv (init_entry cls mem entry)).
  { apply init_entry_bias_inv. eapply Forall_lookup_1; eassumption. }
  assert (Hp : forall k prev, (<[it := init_entry cls mem entry]> (entries_ d)) !! k = Some prev ->
                              bias_inv (init_entry cls mem prev)).
  { intros k prev Hk. apply init_entry_bias_inv.
    eapply (Forall_lookup_1 bias_inv); [|exact Hk]. apply Forall_insert; assumption. }
  cbv zeta.
  destruct_matches; simpl;
    repeat (apply Forall_insert; eauto).
Qed.

Lemma find_bias_inv cls mem src pc want d r :
  Forall bias_inv (entries_ d) ->
  find cls mem src pc want d = Some r ->
  Forall bias_inv (entries_ (found_data r)).
Proof.
  intros Hd. unfold find.
  destruct (entries_find pc (entries_ d)) as [it|] eqn:E.
  - cbv beta iota zeta. rewrite E. intros [= <-]. apply find_at_bias_inv, Hd.
  - destruct (ReadMaps cls src d) as [[ok d1]|] eqn:Hr; [|discriminate].
    cbn [option_map snd].
    pose proof (ReadMaps_bias_inv _ _ _ _ _ Hd Hr) as Hd1.
    destruct (entries_find pc (entries_ d1)); intros [= <-];
      [apply find_at_bias_inv|]; assumption.
Qed.

(** ** Which entries become valid *)

Lemma parse_line_init cls line entry :
  parse_line cls line = ParseEntry entry ->
  init entry = (Z.land (flags entry) PROT_READ =? 0).
Proof.
  unfold parse_line.
  destruct (sc_ret _ <? 2); [discriminate|].
  destruct (sc_start _); [|discriminate].
  destruct (sc_end _); [|discriminate].
  destruct (sc_permissions _); [|discriminate].
  destruct (sc_offset _); [|discriminate].
  destruct (sc_name_pos _); [|discriminate].
  destruct (permissions_at _ 0); [|discriminate].
  destruct (permissions_at _ 2); [|discriminate].
  destruct (Z.land _ PROT_READ =? 0) eqn:E; intros [= <-]; simpl; rewrite E; reflexivity.
Qed.

(** C3, as the code has it.  For an entry as [parse_line] makes it,
    [init] marks it valid only if it is readable, the signature range
    [[start, start + SELFMAG)] is computed without overflow and lies
    within [[start, end)], and the bytes at [start] are the magic
    number; it does mark it valid when, moreover, the signature range
    ends before the end of the entry.  An entry whose first [SELFMAG]
    bytes are not the magic number is not marked valid and has bias 0
    after [init]. *)
Theorem init_marks_valid cls mem line entry :
  parse_line cls line = ParseEntry entry ->
  (valid (init_entry cls mem entry) = true ->
   Z.land (flags entry) PROT_READ <> 0
   /\ start entry + SELFMAG < ptr_modulus cls
   /\ start entry + SELFMAG <= end_ entry
   /\ bytes_at cls mem (start entry) (Z.to_nat SELFMAG) = ELFMAG)
  /\ (Z.land (flags entry) PROT_READ <> 0 ->
      start entry + SELFMAG < ptr_modulus cls ->
      start entry + SELFMAG < end_ entry ->
      bytes_at cls mem (start entry) (Z.to_nat SELFMAG) = ELFMAG ->
      valid (init_entry cls mem entry) = true)
  /\ (bytes_at cls mem (start entry) (Z.to_nat SELFMAG) <> ELFMAG ->
      valid (init_entry cls mem entry) = false
      /\ load_bias (init_entry cls mem entry) = 0).
Proof.
  intros Hp.
  destruct (parse_line_fresh cls line entry Hp) as (Hb & Hv & _).
  pose proof (parse_line_init cls line entry Hp) as Hi.
  split; [|split].
  - intros Hvalid.
    destruct (Z.eqb_spec (Z.land (flags entry) PROT_READ) 0) as [Hz|Hnz].
    + unfold init_entry in Hvalid. rewrite Hi in Hvalid. congruence.
    + apply init_entry_valid in Hvalid; [|assumption].
      destruct Hvalid as [Hvalid|Hvalid]; [congruence|].
      apply valid_elf_true in Hvalid. destruct Hvalid as (Ho & Hlt & Hm).
      split; [assumption|]. split; [assumption|]. split; [lia | assumption].
  - intros Hr Ho Hlt Hm.
    apply init_entry_valid.
    + rewrite Hi. apply Z.eqb_neq. assumption.
    + right. apply valid_elf_true. auto.
  - intros Hm.
    destruct (init_entry_no_magic cls mem entry Hv Hm) as [H1 H2].
    split; [assumption | congruence].
Qed.

Lemma init_marks_valid_witness :
  (valid (init_entry ELFCLASS64 split_image entry_ro) = true ->
   Z.land (flags entry_ro) PROT_READ <> 0
   /\ start entry_ro + SELFMAG < ptr_modulus ELFCLASS64
   /\ start entry_ro + SELFMAG <= end_ entry_ro
   /\ bytes_at ELFCLASS64 split_image (start entry_ro) (Z.to_nat SELFMAG) = ELFMAG)
  /\ (Z.land (flags entry_ro) PROT_READ <> 0 ->
      start entry_ro + SELFMAG < ptr_modulus ELFCLASS64 ->
      start entry_ro + SELFMAG < end_ entry_ro ->
      bytes_at ELFCLASS64 split_image (start entry_ro) (Z.to_nat SELFMAG) = ELFMAG ->
      valid (init_entry ELFCLASS64 split_image entry_ro) = true)
  /\ (bytes_at ELFCLASS64 split_image (start entry_ro) (Z.to_nat SELFMAG) <> ELFMAG ->
      valid (init_entry ELFCLASS64 split_image entry_ro) = false
      /\ load_bias (init_entry ELFCLASS64 split_image entry_ro) = 0).
Proof.
  apply (init_marks_valid ELFCLASS64 split_image line_ro entry_ro).
  vm_compute. reflexivity.
Defined.

(** C3, as the specification states it, fails.  The execute-only mapping
    0x1000-0x2000 has the magic number at its start, well inside its
    range, and is never marked valid: the parser made it initialised.
    The readable mapping 0x1000-0x1004 holds the four magic bytes and
    nothing else, the signature range neither overflows nor leaves the
    mapping, and [init] does not mark it valid either. *)
Lemma init_leaves_matching_entry_invalid :
  (parse_line ELFCLASS64 line_xo = ParseEntry entry_xo
   /\ start entry_xo + SELFMAG < ptr_modulus ELFCLASS64
   /\ start entry_xo + SELFMAG <= end_ entry_xo
   /\ bytes_at ELFCLASS64 split_image (start entry_xo) (Z.to_nat SELFMAG) = ELFMAG
   /\ valid (init_entry ELFCLASS64 split_image entry_xo) = false)
  /\ (init entry_tiny = false
      /\ Z.land (flags entry_tiny) PROT_READ <> 0
      /\ start entry_tiny + SELFMAG < ptr_modulus ELFCLASS64
      /\ start entry_tiny + SELFMAG <= end_ entry_tiny
      /\ bytes_at ELFCLASS64 split_image (start entry_tiny) (Z.to_nat SELFMAG) = ELFMAG
      /\ valid_elf ELFCLASS64 split_image entry_tiny = false
      /\ valid (init_entry ELFCLASS64 split_image entry_tiny) = false).
Proof. repeat split; vm_compute; congruence. Qed.

(** ** Malformed lines *)

(** A line that starts with a character that is neither a blank, nor a
    sign, nor a hexadecimal digit has no start address. *)
Lemma scan_hex_no_number cls c rest :
  isspace c = false ->
  (c =? "-")%char = false ->
  (c =? "+")%char = false ->
  hex_digit c = None ->
  scan_hex cls (String c rest) = None.
Proof.
  intros Hsp Hm Hp Hh. unfold scan_hex.
  cbn [skip_space]. rewrite Hsp. unfold scan_sign. rewrite Hm, Hp.
  assert (H0 : (c =? "0")%char = false).
  { destruct (Ascii.eqb_spec c "0") as [->|]; [discriminate Hh | reflexivity]. }
  destruct rest as [|x [|h t]]; rewrite ?H0; cbn [andb]; rewrite Hh; reflexivity.
Qed.

(** The conversion [%x] fails exactly when there is no number at the
    front of the input. *)
Lemma scan_hex_None_iff cls s :
  scan_hex cls s = None <-> no_hex_number s.
Proof.
  unfold scan_hex, no_hex_number.
  destruct (scan_sign (skip_space s)) as [neg s1]. cbn [snd]. cbv zeta.
  destruct s1 as [|z s1']; [tauto|].
  assert (Hsame :
            (match hex_digit z with
             | Some _ => let (v, rest) := scan_digits hex_digit 16 0 (String z s1') in
                         Some (to_uintptr cls neg v, rest)
             | None => None
             end = None <-> hex_digit z = None)).
  { destruct (hex_digit z); [|tauto].
    destruct (scan_digits hex_digit 16 0 (String z s1')).
    split; discriminate. }
  destruct s1' as [|x [|h t]]; try exact Hsame.
  destruct ((z =? "0")%char && ((x =? "x") || (x =? "X"))%char && is_hex h) eqn:E;
    [|exact Hsame].
  apply andb_true_iff in E as [E Hh]. apply andb_true_iff in E as [Hz _].
  apply Ascii.eqb_eq in Hz. subst z.
  unfold is_hex in Hh. destruct (hex_digit h); [|discriminate].
  destruct (scan_digits hex_digit 16 0 (String h t)).
  split; discriminate.
Qed.

Lemma malformed_address_null cls line :
  malformed_address cls line -> parse_line cls line = ParseNull.
Proof.
  unfold parse_line, sscanf_line. intros [H | (s & rest & H & Hrest)].
  - apply (scan_hex_None_iff cls) in H. rewrite H.
    destruct (skip_space line); reflexivity.
  - rewrite H. destruct (expect "-" rest) as [rest'|]; [|reflexivity].
    apply (scan_hex_None_iff cls) in Hrest. rewrite Hrest. reflexivity.
Qed.

(** [parse_line] returns the null pointer for these lines and for no
    other. *)
Lemma parse_line_null_iff cls line :
  parse_line cls line = ParseNull <-> malformed_address cls line.
Proof.
  split; [|apply malformed_address_null].
  unfold parse_line, sscanf_line, malformed_address.
  destruct (scan_hex cls line) as [[s r0]|] eqn:E0;
    [|intros _; left; apply (scan_hex_None_iff cls); assumption].
  intros H. right. exists s, r0. split; [reflexivity|].
  destruct (expect "-" r0) as [r1|]; [|exact I].
  destruct (scan_hex cls r1) as [[e r2]|] eqn:E1;
    [|apply (scan_hex_None_iff cls); assumption].
  exfalso.
  destruct (scan_str4 (skip_space r2)) as [[perms r3]|];
    [|cbn in H; discriminate].
  destruct (scan_hex cls (skip_space r3)) as [[o r4]|];
    [|cbn in H; discriminate].
  cbn [sc_ret sc_start sc_end sc_permissions sc_offset sc_name_pos] in H.
  change (4 <? 2) with false in H. cbv iota in H.
  destruct (scan_tail cls line r4); [|discriminate].
  destruct (permissions_at perms 0); [|discriminate].
  destruct (permissions_at perms 2); discriminate.
Qed.




(** ** The split mapping of /lib/x.so *)

Lemma split_source_table cls :
  ReadMaps_loop cls (fgets_lines 1024 (String.append line_ro line_rx)) []
  = Some (true, [entry_ro; entry_rx]).
Proof. destruct cls; vm_compute; reflexivity. Qed.

(** C6, as the code has it.  The mapping source lists
    [1000-2000 r--p 00000000 00:00 0 /lib/x.so] and
    [2000-3000 r-xp 00001000 00:00 0 /lib/x.so]; the image has the magic
    number at 0x1000 and not at 0x2000, and its header declares one
    program header, a loadable segment with file offset 0x1000 and
    virtual address 0x1000.  Then [find] of 0x2500 in the empty table
    returns the second entry, named /lib/x.so, with elf_start_offset 0
    and relative pc 0x1500 = 0x2500 - 0x2000 + 0x1000 + 0: the bias
    borrowed from the first entry is 0, because the file offset of the
    segment, 0x1000, is not the file offset 0 of that entry. *)
Theorem split_scenario_relative_pc cls mem src e_phoff :
  src 0%nat = Some (String.append line_ro line_rx) ->
  bytes_at cls mem 4096 (Z.to_nat SELFMAG) = ELFMAG ->
  bytes_at cls mem 8192 (Z.to_nat SELFMAG) <> ELFMAG ->
  e_phnum_of cls mem entry_ro = Some 1 ->
  e_phoff_of cls mem entry_ro = Some e_phoff ->
  p_type_at cls mem entry_ro e_phoff 0 = Some PT_LOAD ->
  p_offset_at cls mem entry_ro e_phoff 0 = Some 4096 ->
  p_vaddr_at cls mem entry_ro e_phoff 0 = Some 4096 ->
  exists r entry,
    find cls mem src 9472 true empty_data = Some r
    /\ found_entry r = Some 1%nat
    /\ entries_ (found_data r) !! 1%nat = Some entry
    /\ name entry = "/lib/x.so"%string
    /\ found_rel_pc r = Some 5376
    /\ elf_start_offset entry = 0.
Proof.
  intros Hsrc Hmagic Hnomagic Hnum Hoff Htype Hpoff Hvaddr.
  assert (Hread : ReadMaps cls src empty_data = Some (true, split_data)).
  { unfold ReadMaps. cbn [refreshes empty_data entries_]. rewrite Hsrc.
    rewrite split_source_table. reflexivity. }
  assert (Hloc : located cls src 9472 empty_data split_data 1).
  { right. split; [reflexivity|]. split; [eauto | reflexivity]. }
  destruct (init_entry_no_magic cls mem entry_rx eq_refl Hnomagic) as [Hrx _].
  assert (Hvalid : valid_elf cls mem entry_ro = true).
  { apply valid_elf_true.
    split; [destruct cls; reflexivity | split; [reflexivity | exact Hmagic]]. }
  destruct (init_entry_valid_elf cls mem entry_ro eq_refl Hvalid) as [Hro Hbias].
  assert (Hzero : load_bias (read_loadbias cls mem entry_ro) = 0).
  { pose proof (read_loadbias_walk cls mem entry_ro) as Hw.
    rewrite Hnum, Hoff in Hw.
    eapply walk_bias_functional; [exact Hw|].
    apply walk_exhausted. intros j Hj.
    assert (j = 0%nat) as -> by (change (Z.to_nat 1) with 1%nat in Hj; lia).
    exists PT_LOAD, 4096. repeat split; try assumption.
    intros [_ H]. discriminate H. }
  rewrite (find_located cls mem src 9472 true _ _ _ Hloc).
  rewrite (find_at_borrow cls mem 9472 1 split_data entry_rx entry_ro);
    try reflexivity; try assumption; try lia.
  destruct (init_entry_frame cls mem entry_rx) as (_ & _ & _ & Hn & _ & _).
  eexists. eexists. split; [reflexivity|]. cbn [found_entry found_rel_pc found_data].
  split; [reflexivity|]. split; [reflexivity|].
  split; [exact Hn|].
  split; [|reflexivity].
  rewrite Hbias, Hzero. destruct cls; reflexivity.
Qed.

Lemma split_scenario_relative_pc_witness :
  exists r entry,
    find ELFCLASS64 split_image split_source 9472 true empty_data = Some r
    /\ found_entry r = Some 1%nat
    /\ entries_ (found_data r) !! 1%nat = Some entry
    /\ name entry = "/lib/x.so"%string
    /\ found_rel_pc r = Some 5376
    /\ elf_start_offset entry = 0.
Proof.
  apply (split_scenario_relative_pc ELFCLASS64 split_image split_source 64).
  - reflexivity.
  - vm_compute. reflexivity.
  - vm_compute. discriminate.
  - vm_compute. reflexivity.
  - vm_compute. reflexivity.
  - vm_compute. reflexivity.
  - vm_compute. reflexivity.
  - vm_compute. reflexivity.
Defined.

(** C6, as the specification states it, fails: in the scenario, with a 64-bit
    image that is zero outside its header, the relative pc [find] stores
    is 0x1500 and not 0x2500. *)
Lemma split_scenario_claimed_offset_fails :
  bytes_at ELFCLASS64 split_image 4096 (Z.to_nat SELFMAG) = ELFMAG
  /\ e_phnum_of ELFCLASS64 split_image entry_ro = Some 1
  /\ e_phoff_of ELFCLASS64 split_image entry_ro = Some 64
  /\ p_type_at ELFCLASS64 split_image entry_ro 64 0 = Some PT_LOAD
  /\ p_offset_at ELFCLASS64 split_image entry_ro 64 0 = Some 4096
  /\ p_vaddr_at ELFCLASS64 split_image entry_ro 64 0 = Some 4096
  /\ exists r,
      find ELFCLASS64 split_image split_source 9472 true empty_data = Some r
      /\ found_rel_pc r = Some 5376
      /\ found_rel_pc r <> Some 9472.
Proof.
  repeat split; try (vm_compute; reflexivity).
  eexists. split; [vm_compute; reflexivity|].
  split; [reflexivity | discriminate].
Qed.

(** ** The theorems at concrete inputs *)

(** The walk skips a header that is not a segment and stops at the
    loadable segment with the mapping's file offset. *)
Example read_loadbias_biased_image :
  load_bias (read_loadbias ELFCLASS64 biased_image entry_ro) = 20480
  /\ load_bias (read_loadbias ELFCLASS64 split_image entry_ro) = 0.
Proof. split; vm_compute; reflexivity. Qed.

Lemma find_returns_containing_entry_witness :
  exists r,
    find ELFCLASS64 biased_image no_source 5376 true split_data = Some r
    /\ found_entry r = Some 0%nat
    /\ refreshes (found_data r) = 1%nat
    /\ found_rel_pc r = Some (wrap ELFCLASS64 (5376 - 4096 + 0 + 20480)).
Proof.
  destruct (find_returns_containing_entry
              ELFCLASS64 biased_image no_source 5376 true split_data 0 entry_ro)
    as (r & Hr & He & Hn & Hrel).
  - reflexivity.
  - reflexivity.
  - intros [|[|j]] e; simpl; intros [= <-]; [reflexivity | discriminate].
  - intros _. reflexivity.
  - exists r. split; [exact Hr|]. split; [exact He|]. split; [exact Hn|].
    destruct (Hrel eq_refl) as (H & _); [vm_compute; reflexivity|].
    rewrite H. vm_compute. reflexivity.
Defined.


Lemma find_without_rel_pc_only_inits_witness :
  find ELFCLASS64 split_image split_source 9472 false split_data
  = Some (mkFound (Some 1%nat) None
                  (with_entries
                     (<[1%nat := init_entry ELFCLASS64 split_image entry_rx]>
                        (entries_ split_data))
                     split_data))
  /\ elf_start_offset (init_entry ELFCLASS64 split_image entry_rx)
     = elf_start_offset entry_rx
  /\ (forall j, j <> 1%nat ->
                (<[1%nat := init_entry ELFCLASS64 split_image entry_rx]>
                   (entries_ split_data)) !! j
                = entries_ split_data !! j).
Proof.
  apply (find_without_rel_pc_only_inits
           ELFCLASS64 split_image split_source 9472 split_data split_data 1 entry_rx).
  - left. split; reflexivity.
  - reflexivity.
Defined.

Lemma find_miss_refreshes_once_witness :
  exists r,
    find ELFCLASS64 zero_mem split_source 5 true empty_data = Some r
    /\ refreshes (found_data r) = 1%nat
    /\ r = mkFound None None split_data.
Proof.
  destruct (find_miss_refreshes_once
              ELFCLASS64 zero_mem split_source 5 true empty_data true split_data)
    as (r & Hr & Hn & Hnone & _).
  - reflexivity.
  - vm_compute. reflexivity.
  - exists r. split; [exact Hr|]. split; [exact Hn|].
    apply Hnone. reflexivity.
Defined.

Lemma refresh_keeps_known_entry_witness :
  ReadMaps_loop ELFCLASS64 [line_ro; line_rx] [entry_ro_cached]
  = ReadMaps_loop ELFCLASS64 [line_rx] [entry_ro_cached]
  /\ (forall ok tbl',
         ReadMaps_loop ELFCLASS64 [line_ro; line_rx] [entry_ro_cached] = Some (ok, tbl') ->
         [entry_ro_cached] `sublist_of` tbl' /\ entry_ro_cached ∈ tbl').
Proof.
  apply (refresh_keeps_known_entry
           ELFCLASS64 line_ro [line_rx] [entry_ro_cached] entry_ro entry_ro_cached).
  - vm_compute. reflexivity.
  - apply elem_of_cons. left. reflexivity.
  - reflexivity.
  - vm_compute. reflexivity.
Defined.

(** * Further properties of the code *)

(** ** The gate when the end of the range does not wrap *)

Lemma land_pow2_pred (a k : Z) :
  0 <= k -> Z.land a (2 ^ k - 1) = a mod 2 ^ k.
Proof.
  intros Hk. rewrite Z.sub_1_r, <- Z.ones_equiv. apply Z.land_ones. assumption.
Qed.

(** X1.  For a field of [2 ^ k] bytes at an address whose range ends
    below the top of the address space, [get_val] grants the read
    exactly when the entry is readable, the whole range
    [[addr, addr + 2 ^ k)] lies in [[start, end)] and [addr] is a
    multiple of the size; the value is the one stored there. *)
Theorem get_val_granted_iff_in_range cls mem entry addr k v :
  0 <= k ->
  0 <= addr ->
  addr + 2 ^ k < ptr_modulus cls ->
  get_val cls mem entry addr (2 ^ k) = Some v <->
  Z.land (flags entry) PROT_READ <> 0
  /\ start entry <= addr
  /\ addr + 2 ^ k <= end_ entry
  /\ addr mod 2 ^ k = 0
  /\ v = load cls mem addr (Z.to_nat (2 ^ k)).
Proof.
  intros Hk Ha Hov.
  assert (Hp : 0 < 2 ^ k) by (apply Z.pow_pos_nonneg; lia).
  rewrite get_val_Some, land_pow2_pred by assumption.
  rewrite (wrap_small cls (addr + 2 ^ k)) by lia.
  reflexivity.
Qed.

Lemma get_val_granted_iff_in_range_witness :
  get_val ELFCLASS64 split_image entry_ro (4096 + 56) (2 ^ 1) = Some 1 <->
  Z.land (flags entry_ro) PROT_READ <> 0
  /\ start entry_ro <= 4096 + 56
  /\ 4096 + 56 + 2 ^ 1 <= end_ entry_ro
  /\ (4096 + 56) mod 2 ^ 1 = 0
  /\ 1 = load ELFCLASS64 split_image (4096 + 56) (Z.to_nat (2 ^ 1)).
Proof.
  apply (get_val_granted_iff_in_range ELFCLASS64 split_image entry_ro (4096 + 56) 1 1).
  - lia.
  - lia.
  - vm_compute. reflexivity.
Defined.

(** ** Values read from the image *)

Lemma byte_at_range mem addr : 0 <= byte_at mem addr < 256.
Proof. unfold byte_at. apply Z.mod_pos_bound. lia. Qed.

Lemma load_range cls mem n :
  forall addr, 0 <= load cls mem addr n < 256 ^ Z.of_nat n.
Proof.
  induction n as [|n IH]; intros addr.
  - simpl. lia.
  - cbn [load]. rewrite Nat2Z.inj_succ, Z.pow_succ_r by lia.
    pose proof (byte_at_range mem addr).
    pose proof (IH (wrap cls (addr + 1))). lia.
Qed.

Lemma get_val_range cls mem entry addr size v :
  0 <= size ->
  get_val cls mem entry addr size = Some v -> 0 <= v < 256 ^ size.
Proof.
  intros Hs H. apply get_val_Some in H. destruct H as (_ & _ & _ & _ & ->).
  pose proof (load_range cls mem (Z.to_nat size) addr) as Hl.
  rewrite Z2Nat.id in Hl by assumption. exact Hl.
Qed.

Lemma phdr_loop_range cls mem entry n :
  forall addr, 0 <= phdr_loop cls mem entry n addr < ptr_modulus cls.
Proof.
  pose proof (ptr_modulus_pos cls) as Hm.
  induction n as [|n IH]; intros addr; cbn [phdr_loop]; [lia|].
  destruct (get_val _ _ _ _ sizeof_Word); [|lia].
  destruct (get_val _ _ _ _ (sizeof_Off cls)); [|lia].
  destruct ((_ =? PT_LOAD) && _); [|apply IH].
  destruct (get_val _ _ _ _ (sizeof_Addr cls)) as [v|] eqn:E; [|lia].
  apply get_val_range in E; [|destruct cls; simpl; lia].
  destruct cls; exact E.
Qed.

Lemma read_loadbias_range cls mem entry :
  0 <= load_bias (read_loadbias cls mem entry) < ptr_modulus cls.
Proof.
  pose proof (ptr_modulus_pos cls) as Hm.
  unfold read_loadbias.
  destruct (get_val _ _ _ _ sizeof_Half); [|simpl; lia].
  destruct (get_val _ _ _ _ (sizeof_Off cls)); [|simpl; lia].
  cbn [load_bias set_load_bias]. apply phdr_loop_range.
Qed.

(** X2.  The bias [init] leaves in an entry is a value of [uintptr_t],
    provided the bias the entry came with is one; and the number of
    program headers [read_loadbias] walks over is below 65536. *)
Theorem init_entry_bias_fits_uintptr cls mem entry :
  0 <= load_bias entry < ptr_modulus cls ->
  0 <= load_bias (init_entry cls mem entry) < ptr_modulus cls
  /\ (forall e_phnum, e_phnum_of cls mem entry = Some e_phnum ->
                      0 <= e_phnum < 65536).
Proof.
  intros Hb. split.
  - unfold init_entry. destruct (init entry); [assumption|].
    destruct (valid_elf cls mem (set_init true entry)); [|assumption].
    apply read_loadbias_range.
  - intros n Hn. unfold e_phnum_of in Hn.
    apply get_val_range in Hn; [exact Hn | unfold sizeof_Half; lia].
Qed.

Lemma init_entry_bias_fits_uintptr_witness :
  0 <= load_bias (init_entry ELFCLASS64 biased_image entry_ro) < ptr_modulus ELFCLASS64
  /\ (forall e_phnum, e_phnum_of ELFCLASS64 biased_image entry_ro = Some e_phnum ->
                      0 <= e_phnum < 65536).
Proof.
  apply (init_entry_bias_fits_uintptr ELFCLASS64 biased_image entry_ro).
  vm_compute. split; congruence.
Defined.

(** ** What [init] writes *)

(** X3.  [init] writes [init], [valid] and [load_bias] and nothing else:
    the range, the file offset, the name, the flags and
    [elf_start_offset] of the entry are as before, and the entry is
    initialised afterwards.  [init] runs once: applied again, with
    whatever image, it leaves the entry as it is. *)
Theorem init_entry_keeps_mapping cls mem mem' entry :
  init_entry cls mem entry
  = mkMapEntry (start entry) (end_ entry) (offset entry)
               (load_bias (init_entry cls mem entry)) (elf_start_offset entry)
               (name entry) (flags entry) true (valid (init_entry cls mem entry))
  /\ init_entry cls mem' (init_entry cls mem entry) = init_entry cls mem entry.
Proof.
  split.
  - pose proof (init_entry_init cls mem entry) as Hi.
    destruct (init_entry_frame cls mem entry) as (Hs & He & Ho & Hn & Hf & Hx).
    destruct (init_entry cls mem entry). simpl in *. subst. reflexivity.
  - unfold init_entry at 1. rewrite init_entry_init. reflexivity.
Qed.

(** ** What the parser makes *)

(** Case analysis on everything a hypothesis matches on. *)
Ltac destruct_matches_in H :=
  repeat match type of H with
         | context [match ?x with _ => _ end] => destruct x eqn:?
         end.

Lemma scan_hex_range cls s v rest :
  scan_hex cls s = Some (v, rest) -> 0 <= v < ptr_modulus cls.
Proof.
  unfold scan_hex. destruct (scan_sign (skip_space s)) as [neg s1].
  cbv zeta. intros H. destruct_matches_in H; try discriminate.
  injection H as <- _. apply wrap_range.
Qed.

Lemma sscanf_line_ranges cls line :
  (forall v, sc_start (sscanf_line cls line) = Some v -> 0 <= v < ptr_modulus cls)
  /\ (forall v, sc_end (sscanf_line cls line) = Some v -> 0 <= v < ptr_modulus cls)
  /\ (forall v, sc_offset (sscanf_line cls line) = Some v -> 0 <= v < ptr_modulus cls).
Proof.
  unfold sscanf_line.
  destruct (scan_hex cls line) as [[s r0]|] eqn:E1.
  2: { split; [|split]; intros v; discriminate. }
  pose proof (scan_hex_range _ _ _ _ E1) as H1.
  destruct (expect "-" r0) as [r1|].
  2: { split; [|split]; intros v; cbn; intros [= <-] || discriminate; assumption. }
  destruct (scan_hex cls r1) as [[e r2]|] eqn:E2.
  2: { split; [|split]; intros v; cbn; intros [= <-] || discriminate; assumption. }
  pose proof (scan_hex_range _ _ _ _ E2) as H2.
  destruct (scan_str4 (skip_space r2)) as [[perms r3]|].
  2: { split; [|split]; intros v; cbn; intros [= <-] || discriminate; assumption. }
  destruct (scan_hex cls (skip_space r3)) as [[o r4]|] eqn:E3.
  2: { split; [|split]; intros v; cbn; intros [= <-] || discriminate; assumption. }
  pose proof (scan_hex_range _ _ _ _ E3) as H3.
  split; [|split]; intros v; cbn; intros [= <-]; assumption.
Qed.

(** X4.  Every entry [parse_line] returns has start, end and file
    offset that are values of [uintptr_t]; its flags are a subset of
    [PROT_READ | PROT_EXEC] (the write and private permissions leave no
    trace); it is not valid, has bias 0 and no borrowed start offset;
    and it is already initialised exactly when it is unreadable. *)
Theorem parse_line_entry_shape cls line entry :
  parse_line cls line = ParseEntry entry ->
  0 <= start entry < ptr_modulus cls
  /\ 0 <= end_ entry < ptr_modulus cls
  /\ 0 <= offset entry < ptr_modulus cls
  /\ (flags entry = 0 \/ flags entry = PROT_READ \/ flags entry = PROT_EXEC
      \/ flags entry = Z.lor PROT_READ PROT_EXEC)
  /\ init entry = (Z.land (flags entry) PROT_READ =? 0)
  /\ valid entry = false
  /\ load_bias entry = 0
  /\ elf_start_offset entry = 0.
Proof.
  intros Hp.
  destruct (parse_line_fresh cls line entry Hp) as (Hb & Hv & Hx).
  pose proof (parse_line_init cls line entry Hp) as Hi.
  destruct (sscanf_line_ranges cls line) as (Rs & Re & Ro).
  unfold parse_line in Hp.
  destruct (sc_ret _ <? 2); [discriminate|].
  destruct (sc_start _) as [s|]; [|discriminate].
  destruct (sc_end _) as [e|]; [|discriminate].
  destruct (sc_permissions _) as [perms|]; [|discriminate].
  destruct (sc_offset _) as [o|]; [|discriminate].
  destruct (sc_name_pos _); [|discriminate].
  destruct (permissions_at _ 0) as [p0|]; [|discriminate].
  destruct (permissions_at _ 2) as [p2|]; [|discriminate].
  specialize (Rs s eq_refl). specialize (Re e eq_refl). specialize (Ro o eq_refl).
  assert (Hflags : flags entry
                   = (if (p2 =? "x")%char
                      then Z.lor (if (p0 =? "r")%char then Z.lor 0 PROT_READ else 0) PROT_EXEC
                      else if (p0 =? "r")%char then Z.lor 0 PROT_READ else 0)
                   /\ start entry = s /\ end_ entry = e /\ offset entry = o).
  { destruct (Z.land _ PROT_READ =? 0); injection Hp as <-; simpl; auto. }
  destruct Hflags as (Hf & -> & -> & ->).
  repeat (split; [assumption|]).
  split; [|auto].
  rewrite Hf. destruct (p2 =? "x")%char, (p0 =? "r")%char; simpl; auto.
Qed.

Lemma parse_line_entry_shape_witness :
  0 <= start entry_xo < ptr_modulus ELFCLASS64
  /\ 0 <= end_ entry_xo < ptr_modulus ELFCLASS64
  /\ 0 <= offset entry_xo < ptr_modulus ELFCLASS64
  /\ (flags entry_xo = 0 \/ flags entry_xo = PROT_READ \/ flags entry_xo = PROT_EXEC
      \/ flags entry_xo = Z.lor PROT_READ PROT_EXEC)
  /\ init entry_xo = (Z.land (flags entry_xo) PROT_READ =? 0)
  /\ valid entry_xo = false
  /\ load_bias entry_xo = 0
  /\ elf_start_offset entry_xo = 0.
Proof.
  apply (parse_line_entry_shape ELFCLASS64 line_xo entry_xo).
  vm_compute. reflexivity.
Defined.

(** X5.  An unreadable mapping is never looked at: whatever the image,
    [init] leaves the entry the parser made as it is, not valid and with
    bias 0, and the gate denies every read in it. *)
Theorem unreadable_entry_is_never_read cls mem line entry :
  parse_line cls line = ParseEntry entry ->
  Z.land (flags entry) PROT_READ = 0 ->
  init_entry cls mem entry = entry
  /\ valid entry = false
  /\ load_bias entry = 0
  /\ forall addr size, get_val cls mem entry addr size = None.
Proof.
  intros Hp Hr.
  destruct (parse_line_fresh cls line entry Hp) as (Hb & Hv & _).
  pose proof (parse_line_init cls line entry Hp) as Hi.
  rewrite Hr in Hi. simpl in Hi.
  split; [unfold init_entry; rewrite Hi; reflexivity|].
  split; [assumption|]. split; [assumption|].
  intros addr size. apply get_val_denied. left. assumption.
Qed.

Lemma unreadable_entry_is_never_read_witness :
  init_entry ELFCLASS64 split_image entry_xo = entry_xo
  /\ valid entry_xo = false
  /\ load_bias entry_xo = 0
  /\ forall addr size, get_val ELFCLASS64 split_image entry_xo addr size = None.
Proof.
  apply (unreadable_entry_is_never_read ELFCLASS64 split_image line_xo entry_xo).
  - vm_compute. reflexivity.
  - reflexivity.
Defined.

(** ** The name of a parsed entry *)

Lemma append_assoc (a b c : string) :
  String.append (String.append a b) c = String.append a (String.append b c).
Proof. induction a as [|x a IH]; simpl; [reflexivity | rewrite IH; reflexivity]. Qed.

Lemma append_empty_r (a : string) : String.append a EmptyString = a.
Proof. induction a as [|x a IH]; simpl; [reflexivity | rewrite IH; reflexivity]. Qed.

Lemma length_append (a b : string) :
  String.length (String.append a b) = (String.length a + String.length b)%nat.
Proof. induction a as [|x a IH]; simpl; [reflexivity | rewrite IH; reflexivity]. Qed.

Lemma is_suffix_refl s : is_suffix s s.
Proof. exists EmptyString. reflexivity. Qed.

Lemma is_suffix_trans a b c : is_suffix a b -> is_suffix b c -> is_suffix a c.
Proof.
  intros [p ->] [q ->]. exists (String.append q p). symmetry. apply append_assoc.
Qed.

Lemma is_suffix_cons c s : is_suffix s (String c s).
Proof. exists (String c EmptyString). reflexivity. Qed.

Lemma skip_space_suffix s : is_suffix (skip_space s) s.
Proof.
  induction s as [|c s IH]; simpl; [apply is_suffix_refl|].
  destruct (isspace c); [|apply is_suffix_refl].
  eapply is_suffix_trans; [exact IH | apply is_suffix_cons].
Qed.

Lemma skip_space_idem s : skip_space (skip_space s) = skip_space s.
Proof.
  induction s as [|c s IH]; simpl; [reflexivity|].
  destruct (isspace c) eqn:E; [exact IH | simpl; rewrite E; reflexivity].
Qed.

Lemma scan_digits_suffix digit base s :
  forall acc, is_suffix (snd (scan_digits digit base acc s)) s.
Proof.
  induction s as [|c s IH]; intros acc; simpl; [apply is_suffix_refl|].
  destruct (digit c); [|apply is_suffix_refl].
  eapply is_suffix_trans; [apply IH | apply is_suffix_cons].
Qed.

Lemma scan_sign_suffix s : is_suffix (snd (scan_sign s)) s.
Proof.
  destruct s as [|c s]; simpl; [apply is_suffix_refl|].
  destruct (c =? "-")%char; [apply is_suffix_cons|].
  destruct (c =? "+")%char; [apply is_suffix_cons | apply is_suffix_refl].
Qed.

Lemma scan_hex_suffix cls s v rest :
  scan_hex cls s = Some (v, rest) -> is_suffix rest s.
Proof.
  unfold scan_hex.
  pose proof (scan_sign_suffix (skip_space s)) as H1.
  destruct (scan_sign (skip_space s)) as [neg s1]. simpl in H1.
  assert (H0 : is_suffix s1 s)
    by (eapply is_suffix_trans; [exact H1 | apply skip_space_suffix]).
  clear H1. cbv zeta.
  set (s2 := match s1 with
             | String z (String x (String h t)) =>
               if (z =? "0")%char && ((x =? "x") || (x =? "X"))%char && is_hex h
               then String h t else s1
             | _ => s1
             end).
  assert (H2 : is_suffix s2 s1).
  { subst s2. destruct s1 as [|z [|x [|h t]]]; try apply is_suffix_refl.
    destruct (_ && _ && _); [|apply is_suffix_refl].
    eapply is_suffix_trans; [apply is_suffix_cons|]. apply is_suffix_cons. }
  clearbody s2.
  destruct s2 as [|c s2']; [discriminate|].
  destruct (hex_digit c); [|discriminate].
  pose proof (scan_digits_suffix hex_digit 16 (String c s2') 0) as H3.
  destruct (scan_digits hex_digit 16 0 (String c s2')) as [v' r]. simpl in H3.
  intros [= _ <-].
  eapply is_suffix_trans; [exact H3|].
  eapply is_suffix_trans; [exact H2 | exact H0].
Qed.

Lemma scan_dec_suffix s rest : scan_dec s = Some rest -> is_suffix rest s.
Proof.
  unfold scan_dec.
  pose proof (scan_sign_suffix (skip_space s)) as H1.
  destruct (scan_sign (skip_space s)) as [neg s1]. simpl in H1.
  destruct s1 as [|c s1']; [discriminate|].
  pose proof (scan_digits_suffix dec_digit 10 (String c s1') 0) as H2.
  destruct (dec_digit c); [|discriminate].
  intros [= <-].
  eapply is_suffix_trans; [exact H2|].
  eapply is_suffix_trans; [exact H1 | apply skip_space_suffix].
Qed.

Lemma scan_word_suffix n :
  forall s, is_suffix (snd (scan_word n s)) s.
Proof.
  induction n as [|n IH]; intros s; simpl; [apply is_suffix_refl|].
  destruct s as [|c s]; [apply is_suffix_refl|].
  destruct (isspace c); [apply is_suffix_refl|].
  specialize (IH s). destruct (scan_word n s) as [w r]. simpl in *.
  eapply is_suffix_trans; [exact IH | apply is_suffix_cons].
Qed.

Lemma scan_str4_suffix s w rest :
  scan_str4 s = Some (w, rest) -> is_suffix rest s.
Proof.
  unfold scan_str4. pose proof (skip_space_suffix s) as H.
  destruct (skip_space s) as [|c s1] eqn:E; [discriminate|].
  pose proof (scan_word_suffix 4 (String c s1)) as H1.
  destruct (scan_word 4 (String c s1)) as [w' r']. simpl in H1.
  intros [= _ <-].
  eapply is_suffix_trans; eassumption.
Qed.

Lemma expect_suffix c s rest : expect c s = Some rest -> is_suffix rest s.
Proof.
  destruct s as [|c' s]; simpl; [discriminate|].
  destruct (c' =? c)%char; [|discriminate]. intros [= <-]. apply is_suffix_cons.
Qed.

Lemma string_drop_suffix suf s :
  is_suffix suf s ->
  string_drop (String.length s - String.length suf) s = suf.
Proof.
  intros [pre ->]. rewrite length_append.
  replace (String.length pre + String.length suf - String.length suf)%nat
    with (String.length pre) by lia.
  induction pre as [|c pre IH]; simpl; [|exact IH].
  destruct suf; reflexivity.
Qed.

(** Where the name starts: at a tail of the line that does not begin
    with a blank. *)
Lemma scan_tail_suffix cls line rest pos :
  is_suffix rest line ->
  scan_tail cls line rest = Some pos ->
  exists suf,
    is_suffix suf line /\ skip_space suf = suf
    /\ pos = (String.length line - String.length suf)%nat.
Proof.
  intros Hrest. unfold scan_tail.
  destruct (scan_hex cls (skip_space rest)) as [[v0 r0]|] eqn:E0; [|discriminate].
  destruct (expect ":" r0) as [r1|] eqn:E1; [|discriminate].
  destruct (scan_hex cls r1) as [[v2 r2]|] eqn:E2; [|discriminate].
  destruct (scan_dec (skip_space r2)) as [r3|] eqn:E3; [|discriminate].
  intros [= <-]. exists (skip_space r3).
  split; [|split; [apply skip_space_idem | reflexivity]].
  eapply is_suffix_trans; [apply skip_space_suffix|].
  eapply is_suffix_trans; [eapply scan_dec_suffix, E3|].
  eapply is_suffix_trans; [apply skip_space_suffix|].
  eapply is_suffix_trans; [eapply scan_hex_suffix, E2|].
  eapply is_suffix_trans; [eapply expect_suffix, E1|].
  eapply is_suffix_trans; [eapply scan_hex_suffix, E0|].
  eapply is_suffix_trans; [apply skip_space_suffix | exact Hrest].
Qed.

Lemma sscanf_line_name_pos cls line pos :
  sc_name_pos (sscanf_line cls line) = Some pos ->
  exists suf,
    is_suffix suf line /\ skip_space suf = suf
    /\ pos = (String.length line - String.length suf)%nat.
Proof.
  unfold sscanf_line.
  destruct (scan_hex cls line) as [[s r0]|] eqn:E0; [|discriminate].
  destruct (expect "-" r0) as [r1|] eqn:E1; [|discriminate].
  destruct (scan_hex cls r1) as [[e r2]|] eqn:E2; [|discriminate].
  destruct (scan_str4 (skip_space r2)) as [[perms r3]|] eqn:E3; [|discriminate].
  destruct (scan_hex cls (skip_space r3)) as [[o r4]|] eqn:E4; [|discriminate].
  cbn [sc_name_pos]. apply scan_tail_suffix.
  eapply is_suffix_trans; [eapply scan_hex_suffix, E4|].
  eapply is_suffix_trans; [apply skip_space_suffix|].
  eapply is_suffix_trans; [eapply scan_str4_suffix, E3|].
  eapply is_suffix_trans; [apply skip_space_suffix|].
  eapply is_suffix_trans; [eapply scan_hex_suffix, E2|].
  eapply is_suffix_trans; [eapply expect_suffix, E1|].
  eapply scan_hex_suffix, E0.
Qed.

Lemma substring_whole s : substring 0 (String.length s) s = s.
Proof. induction s as [|c s IH]; simpl; [reflexivity | rewrite IH; reflexivity]. Qed.

Lemma substring_without_last s c :
  string_last s = Some c ->
  s = String.append (substring 0 (String.length s - 1) s) (String c EmptyString).
Proof.
  induction s as [|x s IH]; [discriminate|].
  destruct s as [|y s'].
  - simpl. intros [= <-]. reflexivity.
  - intros H. change (string_last (String x (String y s'))) with (string_last (String y s')) in H.
    specialize (IH H).
    replace (String.length (String x (String y s')) - 1)%nat
      with (S (String.length (String y s') - 1)) by (simpl; lia).
    cbn [substring]. cbn [String.append]. f_equal. exact IH.
Qed.

(** X6.  The name of a parsed entry comes from a tail of the line that
    does not begin with a blank: when that tail ends with a newline,
    the name is the tail without this last character; otherwise the
    name is the tail, which then does not end with a newline.  So the
    name does not begin with a blank either. *)
Theorem parse_line_name_is_tail cls line entry :
  parse_line cls line = ParseEntry entry ->
  exists tail,
    is_suffix tail line
    /\ (forall c s, tail = String c s -> isspace c = false)
    /\ (tail = String.append (name entry) (String newline EmptyString)
        \/ (tail = name entry /\ string_last tail <> Some newline))
    /\ (forall c s, name entry = String c s -> isspace c = false).
Proof.
  unfold parse_line.
  destruct (sc_ret _ <? 2); [discriminate|].
  destruct (sc_start _) as [s0|]; [|discriminate].
  destruct (sc_end _) as [e0|]; [|discriminate].
  destruct (sc_permissions _) as [perms|]; [|discriminate].
  destruct (sc_offset _) as [o0|]; [|discriminate].
  destruct (sc_name_pos _) as [pos|] eqn:Epos; [|discriminate].
  destruct (permissions_at _ 0) as [p0|]; [|discriminate].
  destruct (permissions_at _ 2) as [p2|]; [|discriminate].
  destruct (sscanf_line_name_pos cls line pos Epos) as (suf & Hsuf & Hsp & ->).
  rewrite (string_drop_suffix suf line Hsuf).
  set (len := match string_last suf with
              | Some c => if (c =? newline)%char
                          then (String.length suf - 1)%nat else String.length suf
              | None => String.length suf
              end).
  intros Hentry.
  assert (Hname : name entry = substring 0 len suf).
  { destruct (Z.land _ PROT_READ =? 0); injection Hentry as <-; reflexivity. }
  clear Hentry. rewrite Hname. subst len.
  assert (Hfirst : forall c s, suf = String c s -> isspace c = false).
  { intros c s ->. simpl in Hsp. destruct (isspace c) eqn:E; [|reflexivity].
    exfalso. pose proof (skip_space_suffix s) as [pre Hpre].
    rewrite Hsp in Hpre. apply (f_equal String.length) in Hpre.
    rewrite length_append in Hpre. simpl in Hpre. lia. }
  exists suf. split; [exact Hsuf|]. split; [exact Hfirst|].
  destruct (string_last suf) as [c|] eqn:El.
  - destruct (Ascii.eqb_spec c newline) as [->|Hc].
    + pose proof (substring_without_last suf newline El) as Hs.
      split; [left; exact Hs|].
      intros c s Hcs. rewrite Hcs in Hs. simpl in Hs. eapply Hfirst, Hs.
    + rewrite substring_whole. split; [|exact Hfirst].
      right. split; [reflexivity|]. congruence.
  - rewrite substring_whole. split; [|exact Hfirst].
    right. split; [reflexivity|]. discriminate.
Qed.

Lemma parse_line_name_is_tail_witness :
  exists tail,
    is_suffix tail line_ro
    /\ (forall c s, tail = String c s -> isspace c = false)
    /\ (tail = String.append (name entry_ro) (String newline EmptyString)
        \/ (tail = name entry_ro /\ string_last tail <> Some newline))
    /\ (forall c s, name entry_ro = String c s -> isspace c = false).
Proof.
  apply (parse_line_name_is_tail ELFCLASS64 line_ro entry_ro).
  vm_compute. reflexivity.
Defined.

(** ** What a refresh puts into the table *)

Lemma entries_insert_elem_inv (e' entry : MapEntry) tbl :
  e' ∈ entries_insert entry tbl -> e' = entry \/ e' ∈ tbl.
Proof.
  induction tbl as [|e tbl IH]; simpl.
  - intros H. apply list_elem_of_singleton in H. left. assumption.
  - destruct (start entry <? start e).
    + intros H. apply elem_of_cons in H. exact H.
    + intros H. apply elem_of_cons in H as [->|H].
      * right. apply elem_of_cons. left. reflexivity.
      * destruct (IH H) as [->|H']; [left; reflexivity|].
        right. apply elem_of_cons. right. assumption.
Qed.

Lemma ReadMaps_loop_provenance cls lines :
  forall tbl ok tbl' e,
    ReadMaps_loop cls lines tbl = Some (ok, tbl') ->
    e ∈ tbl' ->
    e ∈ tbl \/ exists line, line ∈ lines /\ parse_line cls line = ParseEntry e.
Proof.
  induction lines as [|line lines IH]; intros tbl ok tbl' e; simpl.
  - intros [= _ <-] H. left. assumption.
  - destruct (parse_line cls line) as [|entry|] eqn:Hp; [|..|discriminate].
    + intros [= _ <-] H. left. assumption.
    + assert (Hrest : forall t,
                 ReadMaps_loop cls lines t = Some (ok, tbl') -> e ∈ tbl' ->
                 e ∈ t \/ exists l, l ∈ line :: lines /\ parse_line cls l = ParseEntry e).
      { intros t Ht He. destruct (IH t ok tbl' e Ht He) as [H|(l & Hl & Hpl)]; [left; assumption|].
        right. exists l. split; [apply elem_of_cons; right; assumption | assumption]. }
      destruct (entries_find (start entry) tbl); intros Hloop He.
      * apply (Hrest tbl Hloop He).
      * destruct (Hrest _ Hloop He) as [H|H]; [|right; assumption].
        apply entries_insert_elem_inv in H as [->|H]; [|left; assumption].
        right. exists line. split; [apply elem_of_cons; left; reflexivity | assumption].
Qed.

(** X7.  Whatever the mapping source holds and whether the refresh
    succeeds or fails, [ReadMaps] removes and changes no entry: the
    entries the table had are still there, in their order, and every
    other entry of the refreshed table is what [parse_line] made of one
    of the lines read from the source. *)
Theorem ReadMaps_only_adds_parsed_entries cls src d ok d1 :
  ReadMaps cls src d = Some (ok, d1) ->
  entries_ d `sublist_of` entries_ d1
  /\ forall e, e ∈ entries_ d1 ->
               e ∈ entries_ d
               \/ exists text line,
                   src (refreshes d) = Some text
                   /\ line ∈ fgets_lines 1024 text
                   /\ parse_line cls line = ParseEntry e.
Proof.
  unfold ReadMaps. destruct (src (refreshes d)) as [text|].
  - destruct (ReadMaps_loop _ _ _) as [[ok' tbl]|] eqn:E; [|discriminate].
    intros [= _ <-]. cbn [entries_] in *. split.
    + eapply ReadMaps_loop_sublist, E.
    + intros e He.
      destruct (ReadMaps_loop_provenance cls _ _ _ _ e E He) as [H|(line & Hl & Hp)];
        [left; assumption|].
      right. exists text, line. auto.
  - intros [= _ <-]. split; [reflexivity|]. intros e He. left. assumption.
Qed.

Lemma ReadMaps_only_adds_parsed_entries_witness :
  entries_ empty_data `sublist_of` entries_ split_data
  /\ forall e, e ∈ entries_ split_data ->
               e ∈ entries_ empty_data
               \/ exists text line,
                   split_source (refreshes empty_data) = Some text
                   /\ line ∈ fgets_lines 1024 text
                   /\ parse_line ELFCLASS64 line = ParseEntry e.
Proof.
  apply (ReadMaps_only_adds_parsed_entries ELFCLASS64 split_source empty_data true split_data).
  vm_compute. reflexivity.
Defined.

(** X8.  The mapping source cannot be opened and [pc] lies in no entry
    of the table: [find] returns the null pointer, stores nothing, and
    the entries of the table are as they were. *)
Theorem find_without_source_returns_null cls mem src pc want d :
  src (refreshes d) = None ->
  entries_find pc (entries_ d) = None ->
  ReadMaps cls src d = Some (false, mkMapData (entries_ d) (S (refreshes d)))
  /\ find cls mem src pc want d
     = Some (mkFound None None (mkMapData (entries_ d) (S (refreshes d)))).
Proof.
  intros Hsrc Hmiss.
  assert (Hr : ReadMaps cls src d = Some (false, mkMapData (entries_ d) (S (refreshes d)))).
  { unfold ReadMaps. rewrite Hsrc. reflexivity. }
  split; [exact Hr|].
  unfold find. rewrite Hmiss, Hr. cbn [option_map snd entries_]. rewrite Hmiss.
  reflexivity.
Qed.

Lemma find_without_source_returns_null_witness :
  ReadMaps ELFCLASS64 no_source split_data
  = Some (false, mkMapData (entries_ split_data) (S (refreshes split_data)))
  /\ find ELFCLASS64 zero_mem no_source 5 true split_data
     = Some (mkFound None None
                     (mkMapData (entries_ split_data) (S (refreshes split_data)))).
Proof.
  apply (find_without_source_returns_null ELFCLASS64 zero_mem no_source 5 true split_data).
  - reflexivity.
  - reflexivity.
Defined.

(** ** The lines [fgets] hands to the parser *)

Lemma concat_cons (x : string) (xs : list string) :
  String.concat EmptyString (x :: xs)
  = String.append x (String.concat EmptyString xs).
Proof.
  destruct xs as [|y ys]; simpl; [rewrite append_empty_r; reflexivity | reflexivity].
Qed.

Lemma concat_push_char c chunks :
  String.concat EmptyString (push_char c chunks)
  = String c (String.concat EmptyString chunks).
Proof.
  destruct chunks as [|l ls]; [reflexivity|].
  unfold push_char. rewrite !concat_cons. reflexivity.
Qed.

Lemma fgets_chunks_concat size s :
  forall room, String.concat EmptyString (fgets_chunks size room s) = s.
Proof.
  induction s as [|c s IH]; intros room; [reflexivity|].
  cbn [fgets_chunks].
  assert (Hstep : forall r,
             String.concat EmptyString
               (if (c =? newline)%char
                then String c EmptyString :: fgets_chunks size (size - 1) s
                else push_char c (fgets_chunks size (r - 1) s))
             = String c s).
  { intros r. destruct (c =? newline)%char.
    - rewrite concat_cons, IH. reflexivity.
    - rewrite concat_push_char, IH. reflexivity. }
  destruct room; [rewrite concat_cons|]; apply Hstep.
Qed.

Lemma concat_filter_nonempty chunks :
  String.concat EmptyString (List.filter nonempty chunks)
  = String.concat EmptyString chunks.
Proof.
  induction chunks as [|l ls IH]; [reflexivity|].
  cbn [List.filter]. destruct l as [|c l]; cbn [nonempty].
  - rewrite concat_cons. exact IH.
  - rewrite !concat_cons, IH. reflexivity.
Qed.

Lemma fgets_chunks_lengths size s :
  (2 <= size)%nat ->
  forall room,
    (room <= size - 1)%nat ->
    match fgets_chunks size room s with
    | l :: ls =>
      (String.length l <= room)%nat
      /\ Forall (fun l => (String.length l <= size - 1)%nat) ls
    | [] => False
    end.
Proof.
  intros Hsize. induction s as [|c s IH]; intros room Hroom.
  - simpl. split; [lia | constructor].
  - cbn [fgets_chunks].
    assert (Hstep : forall r,
               (1 <= r <= size - 1)%nat ->
               match (if (c =? newline)%char
                      then String c EmptyString :: fgets_chunks size (size - 1) s
                      else push_char c (fgets_chunks size (r - 1) s)) with
               | l :: ls =>
                 (String.length l <= r)%nat
                 /\ Forall (fun l => (String.length l <= size - 1)%nat) ls
               | [] => False
               end).
    { intros r Hr. destruct (c =? newline)%char.
      - specialize (IH (size - 1)%nat (Nat.le_refl _)).
        destruct (fgets_chunks size (size - 1) s) as [|l ls]; [contradiction|].
        destruct IH as [Hl Hls]. split; [simpl; lia|]. constructor; assumption.
      - specialize (IH (r - 1)%nat ltac:(lia)).
        destruct (fgets_chunks size (r - 1) s) as [|l ls]; [contradiction|].
        destruct IH as [Hl Hls]. cbn [push_char]. split; [simpl; lia | assumption]. }
    destruct room as [|room'].
    + split; [simpl; lia|].
      specialize (Hstep (size - 1)%nat ltac:(lia)).
      destruct (if (c =? newline)%char then _ else _) as [|l ls]; [contradiction|].
      destruct Hstep as [Hl Hls]. constructor; assumption.
    + apply Hstep. lia.
Qed.

(** X9.  The lines the loop of [ReadMaps] reads with a buffer of
    [size] characters are never empty and never longer than [size - 1]
    characters, and put end to end they are the text of the mapping
    source: a longer line of the source reaches the parser in pieces,
    nothing is dropped. *)
Theorem fgets_lines_cover_text size text :
  (2 <= size)%nat ->
  String.concat EmptyString (fgets_lines size text) = text
  /\ Forall (fun l => (1 <= String.length l <= size - 1)%nat) (fgets_lines size text).
Proof.
  intros Hsize. unfold fgets_lines. split.
  - rewrite concat_filter_nonempty. apply fgets_chunks_concat.
  - pose proof (fgets_chunks_lengths size text Hsize (size - 1)%nat (Nat.le_refl _)) as H.
    destruct (fgets_chunks size (size - 1) text) as [|l ls]; [contradiction|].
    destruct H as [Hl Hls].
    assert (Hall : Forall (fun l => (String.length l <= size - 1)%nat) (l :: ls))
      by (constructor; assumption).
    clear Hl Hls. induction Hall as [|x xs Hx Hxs IH]; [constructor|].
    cbn [List.filter]. destruct x as [|c x]; cbn [nonempty]; [exact IH|].
    constructor; [|exact IH]. split; [simpl; lia | exact Hx].
Qed.

Lemma fgets_lines_cover_text_witness :
  String.concat EmptyString (fgets_lines 1024 (String.append line_ro line_rx))
  = String.append line_ro line_rx
  /\ Forall (fun l => (1 <= String.length l <= 1024 - 1)%nat)
            (fgets_lines 1024 (String.append line_ro line_rx)).
Proof.
  apply (fgets_lines_cover_text 1024 (String.append line_ro line_rx)).
  lia.
Defined.

(** ** The outcomes of a lookup *)

(** The entry is valid, or the first one, or its predecessor fails the
    test: the entry's own bias is used and no other entry is touched. *)
Lemma find_at_own_untouched cls mem pc it d entry :
  entries_ d !! it = Some entry ->
  valid (init_entry cls mem entry) = true
  \/ it = 0%nat
  \/ (exists prev, entries_ d !! (it - 1)%nat = Some prev
                   /\ readonly_sibling prev entry = false) ->
  find_at cls mem pc true it d
  = mkFound (Some it)
            (Some (wrap cls (pc - start entry + offset entry
                             + load_bias (init_entry cls mem entry))))
            (with_entries (<[it := init_entry cls mem entry]> (entries_ d)) d).
Proof.
  intros Hit Hc.
  destruct (init_entry_frame cls mem entry) as (Hs & _ & Ho & Hn & _ & _).
  unfold find_at. rewrite Hit. cbv zeta. rewrite Hs, Ho, Hn.
  destruct (valid (init_entry cls mem entry)) eqn:Ev; [reflexivity|].
  destruct (Nat.eqb_spec it 0) as [->|Hne]; [reflexivity|].
  cbn [negb andb].
  destruct Hc as [Hc|[Hc|(prev & Hp & Hq)]]; [discriminate | contradiction |].
  rewrite list_lookup_insert_ne by lia. rewrite Hp.
  unfold readonly_sibling in Hq. rewrite Hq. reflexivity.
Qed.

(** The predecessor passes the test but is not a valid image: it is
    initialised, and the entry's own bias is used. *)
Lemma find_at_own_sibling_invalid cls mem pc it d entry prev :
  entries_ d !! it = Some entry ->
  valid (init_entry cls mem entry) = false ->
  it <> 0%nat ->
  entries_ d !! (it - 1)%nat = Some prev ->
  readonly_sibling prev entry = true ->
  valid (init_entry cls mem prev) = false ->
  find_at cls mem pc true it d
  = mkFound (Some it)
            (Some (wrap cls (pc - start entry + offset entry
                             + load_bias (init_entry cls mem entry))))
            (with_entries
               (<[(it - 1)%nat := init_entry cls mem prev]>
                  (<[it := init_entry cls mem entry]> (entries_ d)))
               d).
Proof.
  intros Hit Hv Hne Hprev Hq Hpv.
  destruct (init_entry_frame cls mem entry) as (Hs & _ & Ho & Hn & _ & _).
  unfold find_at. rewrite Hit. cbv zeta. rewrite Hv, Hs, Ho, Hn.
  rewrite list_lookup_insert_ne by lia. rewrite Hprev, Hpv.
  apply Nat.eqb_neq in Hne. rewrite Hne.
  unfold readonly_sibling in Hq. rewrite Hq. reflexivity.
Qed.

Lemma readonly_sibling_true prev entry :
  readonly_sibling prev entry = true <->
  flags prev = PROT_READ /\ offset prev < offset entry /\ name prev = name entry.
Proof.
  unfold readonly_sibling. rewrite !andb_true_iff, Z.eqb_eq, Z.ltb_lt, String.eqb_eq.
  tauto.
Qed.

(** The four ways a lookup that found position [it] can end. *)
Lemma find_at_cases cls mem pc want it d entry :
  entries_ d !! it = Some entry ->
  (want = false
   /\ find_at cls mem pc want it d
      = mkFound (Some it) None
                (with_entries (<[it := init_entry cls mem entry]> (entries_ d)) d))
  \/ (want = true
      /\ (valid (init_entry cls mem entry) = true
          \/ it = 0%nat
          \/ (exists prev, entries_ d !! (it - 1)%nat = Some prev
                           /\ readonly_sibling prev entry = false))
      /\ find_at cls mem pc want it d
         = mkFound (Some it)
                   (Some (wrap cls (pc - start entry + offset entry
                                    + load_bias (init_entry cls mem entry))))
                   (with_entries (<[it := init_entry cls mem entry]> (entries_ d)) d))
  \/ (exists prev,
         want = true
         /\ valid (init_entry cls mem entry) = false
         /\ it <> 0%nat
         /\ entries_ d !! (it - 1)%nat = Some prev
         /\ readonly_sibling prev entry = true
         /\ ((valid (init_entry cls mem prev) = false
              /\ find_at cls mem pc want it d
                 = mkFound (Some it)
                           (Some (wrap cls (pc - start entry + offset entry
                                            + load_bias (init_entry cls mem entry))))
                           (with_entries
                              (<[(it - 1)%nat := init_entry cls mem prev]>
                                 (<[it := init_entry cls mem entry]> (entries_ d)))
                              d))
             \/ (valid (init_entry cls mem prev) = true
                 /\ find_at cls mem pc want it d
                    = mkFound (Some it)
                              (Some (wrap cls (pc - start entry + offset entry
                                               + load_bias (init_entry cls mem prev))))
                              (with_entries
                                 (<[it := set_elf_start_offset (offset prev)
                                                               (init_entry cls mem entry)]>
                                    (<[(it - 1)%nat := init_entry cls mem prev]>
                                       (<[it := init_entry cls mem entry]> (entries_ d))))
                                 d)))).
Proof.
  intros Hit.
  destruct want; [|left; split; [reflexivity | apply find_at_null; assumption]].
  right.
  destruct (valid (init_entry cls mem entry)) eqn:Ev;
    [left; split; [reflexivity|]; split; [auto|];
     apply find_at_own_untouched; auto|].
  destruct (Nat.eq_dec it 0%nat) as [H0|Hne];
    [left; split; [reflexivity|]; split; [auto|];
     apply find_at_own_untouched; auto|].
  assert (Hlt : (it - 1 < length (entries_ d))%nat)
    by (apply lookup_lt_Some in Hit; lia).
  apply lookup_lt_is_Some_2 in Hlt as [prev Hprev].
  destruct (readonly_sibling prev entry) eqn:Hq.
  - right. exists prev. repeat (split; [assumption || reflexivity|]).
    destruct (valid (init_entry cls mem prev)) eqn:Hpv.
    + right. split; [reflexivity|].
      apply readonly_sibling_true in Hq as (Hf & Ho & Hn).
      apply find_at_borrow; assumption.
    + left. split; [reflexivity|].
      apply find_at_own_sibling_invalid; assumption.
  - left. split; [reflexivity|]. split; [eauto 6|].
    apply find_at_own_untouched; eauto 6.
Qed.

Lemma same_mapping_refl e : same_mapping e e.
Proof. unfold same_mapping. tauto. Qed.

Lemma same_mapping_init cls mem e : same_mapping e (init_entry cls mem e).
Proof.
  destruct (init_entry_frame cls mem e) as (Hs & He & Ho & Hn & Hf & _).
  unfold same_mapping. rewrite Hs, He, Ho, Hn, Hf. tauto.
Qed.

Lemma same_mapping_table_refl (tbl : list MapEntry) : Forall2 same_mapping tbl tbl.
Proof. induction tbl; constructor; [apply same_mapping_refl | assumption]. Qed.

Lemma same_mapping_insert (tbl tbl' : list MapEntry) i e e' :
  Forall2 same_mapping tbl tbl' ->
  tbl !! i = Some e ->
  same_mapping e e' ->
  Forall2 same_mapping tbl (<[i := e']> tbl').
Proof.
  intros H Hi He.
  pose proof (Forall2_insert same_mapping tbl tbl' e e' i H He) as H'.
  rewrite (list_insert_id tbl i e Hi) in H'. exact H'.
Qed.

Lemma contains_same_mapping pc e e' :
  same_mapping e e' -> contains pc e' = contains pc e.
Proof. intros (Hs & He & _). unfold contains. rewrite Hs, He. reflexivity. Qed.

Lemma entries_find_same_mapping pc (tbl tbl' : list MapEntry) :
  Forall2 same_mapping tbl tbl' -> entries_find pc tbl' = entries_find pc tbl.
Proof.
  induction 1 as [|e e' tbl tbl' He Htbl IH]; [reflexivity|].
  simpl. rewrite (contains_same_mapping pc e e' He), IH. reflexivity.
Qed.

(** What every outcome has in common. *)
Lemma find_at_found cls mem pc want it d entry :
  entries_ d !! it = Some entry ->
  found_entry (find_at cls mem pc want it d) = Some it
  /\ refreshes (found_data (find_at cls mem pc want it d)) = refreshes d
  /\ (found_rel_pc (find_at cls mem pc want it d) = None <-> want = false)
  /\ Forall2 same_mapping (entries_ d) (entries_ (found_data (find_at cls mem pc want it d)))
  /\ (exists e, entries_ (found_data (find_at cls mem pc want it d)) !! it = Some e
                /\ init e = true
                /\ valid e = valid (init_entry cls mem entry)
                /\ load_bias e = load_bias (init_entry cls mem entry))
  /\ (forall j, j <> it -> j <> (it - 1)%nat ->
                entries_ (found_data (find_at cls mem pc want it d)) !! j
                = entries_ d !! j)
  /\ (forall prev, it <> 0%nat -> entries_ d !! (it - 1)%nat = Some prev ->
                   entries_ (found_data (find_at cls mem pc want it d)) !! (it - 1)%nat
                   = Some prev
                   \/ entries_ (found_data (find_at cls mem pc want it d)) !! (it - 1)%nat
                      = Some (init_entry cls mem prev)).
Proof.
  intros Hit.
  pose proof (lookup_lt_Some _ _ _ Hit) as Hlen.
  pose proof (same_mapping_table_refl (entries_ d)) as H0.
  pose proof (same_mapping_insert _ _ it entry (init_entry cls mem entry) H0 Hit
                                  (same_mapping_init cls mem entry)) as H1.
  pose proof (init_entry_init cls mem entry) as Hi.
  destruct (find_at_cases cls mem pc want it d entry Hit)
    as [(-> & ->) | [(-> & _ & ->) | (prev & -> & Hv & Hne & Hprev & Hq & [(Hpv & ->) | (Hpv & ->)])]];
    cbn [found_entry found_rel_pc found_data with_entries entries_ refreshes].
  - repeat split; try discriminate; try assumption.
    + exists (init_entry cls mem entry).
      rewrite list_lookup_insert_eq by assumption. auto.
    + intros j Hj _. apply list_lookup_insert_ne. auto.
    + intros p Hn Hp. left. rewrite list_lookup_insert_ne by lia. assumption.
  - repeat split; try discriminate; try assumption.
    + exists (init_entry cls mem entry).
      rewrite list_lookup_insert_eq by assumption. auto.
    + intros j Hj _. apply list_lookup_insert_ne. auto.
    + intros p Hn Hp. left. rewrite list_lookup_insert_ne by lia. assumption.
  - pose proof (same_mapping_insert _ _ (it - 1)%nat prev (init_entry cls mem prev) H1 Hprev
                                    (same_mapping_init cls mem prev)) as H2.
    repeat split; try discriminate; try assumption.
    + exists (init_entry cls mem entry).
      rewrite list_lookup_insert_ne by lia.
      rewrite list_lookup_insert_eq by assumption. auto.
    + intros j Hj Hj'. rewrite !list_lookup_insert_ne by auto. reflexivity.
    + intros p Hn Hp. right. rewrite Hprev in Hp. injection Hp as <-.
      apply list_lookup_insert_eq. rewrite length_insert. lia.
  - pose proof (same_mapping_insert _ _ (it - 1)%nat prev (init_entry cls mem prev) H1 Hprev
                                    (same_mapping_init cls mem prev)) as H2.
    assert (H3 : same_mapping entry (set_elf_start_offset (offset prev)
                                                          (init_entry cls mem entry)))
      by apply (same_mapping_init cls mem entry).
    pose proof (same_mapping_insert _ _ it entry _ H2 Hit H3) as H4.
    repeat split; try discriminate; try assumption.
    + eexists. rewrite list_lookup_insert_eq by (rewrite !length_insert; assumption).
      split; [reflexivity|]. cbn [init valid load_bias set_elf_start_offset]. auto.
    + intros j Hj Hj'. rewrite !list_lookup_insert_ne by auto. reflexivity.
    + intros p Hn Hp. right. rewrite Hprev in Hp. injection Hp as <-.
      rewrite list_lookup_insert_ne by lia.
      apply list_lookup_insert_eq. rewrite length_insert. lia.
Qed.

(** How a call of [find] ends: with a lookup that found a position, or
    with nothing found in the table it leaves. *)
Lemma find_inv cls mem src pc want d r :
  find cls mem src pc want d = Some r ->
  (exists d1 it, located cls src pc d d1 it /\ r = find_at cls mem pc want it d1)
  \/ (r = mkFound None None (found_data r)
      /\ entries_find pc (entries_ d) = None
      /\ entries_find pc (entries_ (found_data r)) = None
      /\ exists ok, ReadMaps cls src d = Some (ok, found_data r)).
Proof.
  unfold find.
  destruct (entries_find pc (entries_ d)) as [it|] eqn:E.
  - cbv beta iota zeta. rewrite E. intros [= <-].
    left. exists d, it. split; [left; auto | reflexivity].
  - destruct (ReadMaps cls src d) as [[ok d1]|] eqn:Hr; [|discriminate].
    cbn [option_map snd].
    destruct (entries_find pc (entries_ d1)) as [it|] eqn:E1; intros [= <-].
    + left. exists d1, it. split; [right; eauto | reflexivity].
    + right. cbn [found_data]. eauto.
Qed.

(** X10.  What [find] returns is sound.  When it returns an entry, the
    entry contains [pc], it is initialised, and a relative pc is stored
    exactly when one was asked for.  When it returns the null pointer,
    nothing is stored and no entry of the table it leaves contains
    [pc]. *)
Theorem find_result_is_sound cls mem src pc want d r :
  find cls mem src pc want d = Some r ->
  match found_entry r with
  | Some it =>
    exists e, entries_ (found_data r) !! it = Some e
              /\ contains pc e = true
              /\ init e = true
              /\ (found_rel_pc r = None <-> want = false)
  | None =>
    found_rel_pc r = None
    /\ forall i e, entries_ (found_data r) !! i = Some e -> contains pc e = false
  end.
Proof.
  intros H.
  destruct (find_inv _ _ _ _ _ _ _ H) as [(d1 & it & Hloc & ->) | (Hr & _ & Hnone & _)].
  - assert (Hf : entries_find pc (entries_ d1) = Some it).
    { destruct Hloc as [[Hf ->] | (_ & _ & Hf)]; assumption. }
    destruct (entries_find_Some _ _ _ Hf) as (entry & Hit & Hc).
    destruct (find_at_found cls mem pc want it d1 entry Hit)
      as (-> & _ & Hrel & Hsame & (e & He & Hi & _) & _).
    exists e. repeat split; try assumption; try apply Hrel.
    destruct (Forall2_lookup_l _ _ _ _ _ Hsame Hit) as (e' & He' & Hm).
    rewrite He in He'. injection He' as <-.
    rewrite (contains_same_mapping pc entry e Hm). assumption.
  - rewrite Hr. cbn [found_entry found_rel_pc found_data].
    split; [reflexivity|]. apply entries_find_None. assumption.
Qed.

Lemma find_result_is_sound_witness :
  exists e, entries_ (found_data (find_at ELFCLASS64 biased_image 9472 true 1 split_data))
            !! 1%nat = Some e
            /\ contains 9472 e = true
            /\ init e = true
            /\ (found_rel_pc (find_at ELFCLASS64 biased_image 9472 true 1 split_data) = None
                <-> true = false).
Proof.
  apply (find_result_is_sound ELFCLASS64 biased_image split_source 9472 true split_data
                              (find_at ELFCLASS64 biased_image 9472 true 1 split_data)).
  reflexivity.
Defined.

(** X11.  A lookup that finds [pc] in the table it starts with does not
    open the mapping source, and it leaves the table with the same
    mappings at the same positions: no entry changes its range, file
    offset, name or flags; only the entry found and its predecessor can
    change at all, and the predecessor is at most initialised. *)
Theorem find_hit_changes_two_entries_at_most cls mem src pc want d it r :
  entries_find pc (entries_ d) = Some it ->
  find cls mem src pc want d = Some r ->
  found_entry r = Some it
  /\ refreshes (found_data r) = refreshes d
  /\ Forall2 same_mapping (entries_ d) (entries_ (found_data r))
  /\ (forall j, j <> it -> j <> (it - 1)%nat ->
                entries_ (found_data r) !! j = entries_ d !! j)
  /\ (forall prev, it <> 0%nat -> entries_ d !! (it - 1)%nat = Some prev ->
                   entries_ (found_data r) !! (it - 1)%nat = Some prev
                   \/ entries_ (found_data r) !! (it - 1)%nat
                      = Some (init_entry cls mem prev)).
Proof.
  intros Hf H.
  assert (Hloc : located cls src pc d d it) by (left; auto).
  rewrite (find_located cls mem src pc want d d it Hloc) in H. injection H as <-.
  destruct (entries_find_Some _ _ _ Hf) as (entry & Hit & _).
  destruct (find_at_found cls mem pc want it d entry Hit)
    as (H1 & H2 & _ & H3 & _ & H4 & H5).
  auto.
Qed.

Lemma find_hit_changes_two_entries_at_most_witness :
  let r := find_at ELFCLASS64 biased_image 9472 true 1 split_data in
  found_entry r = Some 1%nat
  /\ refreshes (found_data r) = refreshes split_data
  /\ Forall2 same_mapping (entries_ split_data) (entries_ (found_data r))
  /\ (forall j, j <> 1%nat -> j <> (1 - 1)%nat ->
                entries_ (found_data r) !! j = entries_ split_data !! j)
  /\ (forall prev, 1%nat <> 0%nat -> entries_ split_data !! (1 - 1)%nat = Some prev ->
                   entries_ (found_data r) !! (1 - 1)%nat = Some prev
                   \/ entries_ (found_data r) !! (1 - 1)%nat
                      = Some (init_entry ELFCLASS64 biased_image prev)).
Proof.
  apply (find_hit_changes_two_entries_at_most
           ELFCLASS64 biased_image split_source 9472 true split_data 1).
  - reflexivity.
  - reflexivity.
Defined.

(** X12.  An entry that is a valid image itself, or is the first of the
    table, never borrows: [find] stores [pc - start + offset] plus the
    entry's own bias, touches no other entry and does not write
    [elf_start_offset]. *)
Theorem find_valid_entry_uses_own_bias cls mem src pc d d1 it entry :
  located cls src pc d d1 it ->
  entries_ d1 !! it = Some entry ->
  valid (init_entry cls mem entry) = true \/ it = 0%nat ->
  find cls mem src pc true d
  = Some (mkFound (Some it)
                  (Some (wrap cls (pc - start entry + offset entry
                                   + load_bias (init_entry cls mem entry))))
                  (with_entries (<[it := init_entry cls mem entry]> (entries_ d1)) d1))
  /\ elf_start_offset (init_entry cls mem entry) = elf_start_offset entry.
Proof.
  intros Hloc Hit Hc.
  rewrite (find_located cls mem src pc true d d1 it Hloc).
  rewrite (find_at_own_untouched cls mem pc it d1 entry Hit) by tauto.
  split; [reflexivity | apply init_entry_frame].
Qed.

Lemma find_valid_entry_uses_own_bias_witness :
  find ELFCLASS64 biased_image no_source 5376 true split_data
  = Some (mkFound (Some 0%nat)
                  (Some (wrap ELFCLASS64
                              (5376 - start entry_ro + offset entry_ro
                               + load_bias (init_entry ELFCLASS64 biased_image entry_ro))))
                  (with_entries
                     (<[0%nat := init_entry ELFCLASS64 biased_image entry_ro]>
                        (entries_ split_data))
                     split_data))
  /\ elf_start_offset (init_entry ELFCLASS64 biased_image entry_ro)
     = elf_start_offset entry_ro.
Proof.
  apply (find_valid_entry_uses_own_bias
           ELFCLASS64 biased_image no_source 5376 split_data split_data 0 entry_ro).
  - left. split; reflexivity.
  - reflexivity.
  - left. vm_compute. reflexivity.
Defined.

(** ** Looking the same pc up again *)

Lemma init_entry_of_init cls mem entry :
  init entry = true -> init_entry cls mem entry = entry.
Proof. intros H. unfold init_entry. rewrite H. reflexivity. Qed.

Lemma readonly_sibling_same_mapping p p' e e' :
  same_mapping p p' -> same_mapping e e' ->
  readonly_sibling p' e' = readonly_sibling p e.
Proof.
  intros (_ & _ & Hpo & Hpn & Hpf) (_ & _ & Heo & Hen & _).
  unfold readonly_sibling. rewrite Hpo, Hpn, Hpf, Heo, Hen. reflexivity.
Qed.

Lemma find_at_again cls mem mem' pc want it d entry :
  entries_ d !! it = Some entry ->
  find_at cls mem' pc want it (found_data (find_at cls mem pc want it d))
  = find_at cls mem pc want it d.
Proof.
  intros Hit.
  pose proof (lookup_lt_Some _ _ _ Hit) as Hlen.
  set (ie := init_entry cls mem entry).
  assert (Hie : forall m, init_entry cls m ie = ie)
    by (intros m; apply init_entry_of_init, init_entry_init).
  pose proof (same_mapping_init cls mem entry) as Hme. fold ie in Hme.
  destruct (init_entry_frame cls mem entry) as (Hs & _ & Ho & _ & _ & _).
  fold ie in Hs, Ho.
  destruct (find_at_cases cls mem pc want it d entry Hit)
    as [(-> & ->) | [(-> & Hc & ->) | (prev & -> & Hv & Hne & Hprev & Hq & [(Hpv & ->) | (Hpv & ->)])]];
    fold ie; fold ie in Hc || idtac;
    cbn [found_data]; unfold with_entries.
  - (* no relative pc *)
    rewrite (find_at_null cls mem' pc it _ ie)
      by (cbn [entries_]; apply list_lookup_insert_eq; assumption).
    unfold with_entries; cbn [entries_ refreshes].
    rewrite Hie, list_insert_insert_eq. reflexivity.
  - (* own bias, nothing else touched *)
    rewrite (find_at_own_untouched cls mem' pc it _ ie).
    + unfold with_entries; cbn [entries_ refreshes].
      rewrite Hie, list_insert_insert_eq, Hs, Ho. reflexivity.
    + cbn [entries_]. apply list_lookup_insert_eq. assumption.
    + rewrite Hie. unfold with_entries. cbn [entries_].
      destruct Hc as [Hc|[Hc|(prev & Hp & Hq)]]; [auto | auto |].
      destruct (Nat.eq_dec it 0%nat) as [H0|Hne]; [auto|].
      right. right. exists prev.
      rewrite list_lookup_insert_ne by lia. split; [assumption|].
      rewrite (readonly_sibling_same_mapping prev prev entry ie
                 (same_mapping_refl prev) Hme). assumption.
  - (* own bias, predecessor initialised *)
    set (ip := init_entry cls mem prev).
    assert (Hip : forall m, init_entry cls m ip = ip)
      by (intros m; apply init_entry_of_init, init_entry_init).
    pose proof (same_mapping_init cls mem prev) as Hmp. fold ip in Hmp.
    assert (L1 : <[(it - 1)%nat := ip]> (<[it := ie]> (entries_ d)) !! it = Some ie).
    { rewrite list_lookup_insert_ne by lia. apply list_lookup_insert_eq. assumption. }
    assert (L2 : <[(it - 1)%nat := ip]> (<[it := ie]> (entries_ d)) !! (it - 1)%nat = Some ip).
    { apply list_lookup_insert_eq. rewrite length_insert. lia. }
    rewrite (find_at_own_sibling_invalid cls mem' pc it _ ie ip);
      unfold with_entries; cbn [entries_ refreshes]; rewrite ?Hie, ?Hip; try assumption.
    + rewrite (list_insert_id _ it ie L1), (list_insert_id _ (it - 1)%nat ip L2), Hs, Ho.
      reflexivity.
    + rewrite (readonly_sibling_same_mapping prev ip entry ie Hmp Hme). assumption.
  - (* borrowed bias *)
    set (ip := init_entry cls mem prev).
    assert (Hip : forall m, init_entry cls m ip = ip)
      by (intros m; apply init_entry_of_init, init_entry_init).
    pose proof (same_mapping_init cls mem prev) as Hmp. fold ip in Hmp.
    fold ip in Hpv.
    set (e' := set_elf_start_offset (offset prev) ie).
    assert (He' : forall m, init_entry cls m e' = e')
      by (intros m; apply init_entry_of_init; apply (init_entry_init cls mem entry)).
    set (T3 := <[it := e']> (<[(it - 1)%nat := ip]> (<[it := ie]> (entries_ d)))).
    assert (L1 : T3 !! it = Some e').
    { apply list_lookup_insert_eq. rewrite !length_insert. assumption. }
    assert (L2 : T3 !! (it - 1)%nat = Some ip).
    { unfold T3. rewrite list_lookup_insert_ne by lia.
      apply list_lookup_insert_eq. rewrite length_insert. lia. }
    apply readonly_sibling_true in Hq as (Hqf & Hqo & Hqn).
    destruct Hmp as (_ & _ & Hpo & Hpn & Hpf).
    destruct Hme as (_ & _ & Heo & Hen & _).
    rewrite (find_at_borrow cls mem' pc it _ e' ip);
      unfold with_entries; cbn [entries_ refreshes]; rewrite ?He', ?Hip; try assumption.
    + assert (Hset : set_elf_start_offset (offset ip) e' = e')
        by (unfold e'; rewrite <- Hpo; reflexivity).
      rewrite Hset.
      rewrite (list_insert_id T3 it e' L1), (list_insert_id T3 (it - 1)%nat ip L2).
      rewrite (list_insert_id T3 it e' L1).
      change (start e') with (start ie). change (offset e') with (offset ie).
      rewrite Hs, Ho. reflexivity.
    + congruence.
    + change (offset e') with (offset ie). lia.
    + change (name e') with (name ie). congruence.
Qed.

(** X13.  Lookups are cached.  When [find] has returned an entry for
    [pc], the same call on the table it left returns the same entry and
    stores the same relative pc without opening the mapping source and
    without changing the table, even if the image or the mapping source
    have changed in between. *)
Theorem find_again_returns_the_same cls mem mem' src src' pc want d r it :
  find cls mem src pc want d = Some r ->
  found_entry r = Some it ->
  find cls mem' src' pc want (found_data r) = Some r.
Proof.
  intros H Hfound.
  destruct (find_inv _ _ _ _ _ _ _ H) as [(d1 & it' & Hloc & ->) | (Hr & _)];
    [|rewrite Hr in Hfound; discriminate].
  assert (Hf : entries_find pc (entries_ d1) = Some it').
  { destruct Hloc as [[Hf ->] | (_ & _ & Hf)]; assumption. }
  destruct (entries_find_Some _ _ _ Hf) as (entry & Hit & _).
  destruct (find_at_found cls mem pc want it' d1 entry Hit) as (_ & _ & _ & Hsame & _).
  assert (Hloc' : located cls src' pc (found_data (find_at cls mem pc want it' d1))
                          (found_data (find_at cls mem pc want it' d1)) it').
  { left. split; [|reflexivity].
    rewrite (entries_find_same_mapping pc _ _ Hsame). assumption. }
  rewrite (find_located cls mem' src' pc want _ _ _ Hloc').
  f_equal. apply (find_at_again cls mem mem' pc want it' d1 entry Hit).
Qed.

Lemma find_again_returns_the_same_witness :
  find ELFCLASS64 zero_mem no_source 9472 true
       (found_data (find_at ELFCLASS64 biased_image 9472 true 1 split_data))
  = Some (find_at ELFCLASS64 biased_image 9472 true 1 split_data).
Proof.
  apply (find_again_returns_the_same
           ELFCLASS64 biased_image zero_mem split_source no_source 9472 true split_data
           (find_at ELFCLASS64 biased_image 9472 true 1 split_data) 1).
  - reflexivity.
  - reflexivity.
Defined.

(** ** The bytes [init] depends on *)

Lemma load_agree cls mem mem' n :
  forall addr,
    0 <= addr ->
    addr + Z.of_nat n <= ptr_modulus cls ->
    (forall i, 0 <= i < Z.of_nat n -> byte_at mem (addr + i) = byte_at mem' (addr + i)) ->
    load cls mem addr n = load cls mem' addr n.
Proof.
  induction n as [|n IH]; intros addr Ha Hn Hb; [reflexivity|].
  cbn [load]. rewrite Nat2Z.inj_succ in Hn.
  pose proof (Hb 0 ltac:(lia)) as H0. rewrite Z.add_0_r in H0. rewrite H0.
  f_equal. f_equal.
  destruct n as [|n']; [reflexivity|].
  rewrite (wrap_small cls (addr + 1)) by lia.
  apply IH; [lia | lia |].
  intros i Hi. replace (addr + 1 + i) with (addr + (1 + i)) by lia.
  apply Hb. lia.
Qed.

Lemma bytes_at_agree cls mem mem' n :
  forall addr,
    0 <= addr ->
    addr + Z.of_nat n <= ptr_modulus cls ->
    (forall i, 0 <= i < Z.of_nat n -> byte_at mem (addr + i) = byte_at mem' (addr + i)) ->
    bytes_at cls mem addr n = bytes_at cls mem' addr n.
Proof.
  induction n as [|n IH]; intros addr Ha Hn Hb; [reflexivity|].
  cbn [bytes_at]. rewrite Nat2Z.inj_succ in Hn.
  pose proof (Hb 0 ltac:(lia)) as H0. rewrite Z.add_0_r in H0. rewrite H0.
  f_equal.
  destruct n as [|n']; [reflexivity|].
  rewrite (wrap_small cls (addr + 1)) by lia.
  apply IH; [lia | lia |].
  intros i Hi. replace (addr + 1 + i) with (addr + (1 + i)) by lia.
  apply Hb. lia.
Qed.

(** An aligned field that starts inside the address space ends inside
    it. *)
Lemma aligned_field_fits cls addr k :
  0 <= k <= 3 ->
  0 <= addr < ptr_modulus cls ->
  addr mod 2 ^ k = 0 ->
  addr + 2 ^ k <= ptr_modulus cls.
Proof.
  intros Hk Ha Hal.
  assert (Hp : 0 < 2 ^ k) by (apply Z.pow_pos_nonneg; lia).
  assert (Hm : ptr_modulus cls = 2 ^ k * 2 ^ (ptr_bits cls - k)).
  { unfold ptr_modulus. rewrite <- Z.pow_add_r by (destruct cls; simpl; lia).
    f_equal. lia. }
  apply Z.mod_divide in Hal; [|lia]. destruct Hal as [q Hq].
  rewrite Hm in *. subst addr.
  set (p := 2 ^ k) in *. set (X := 2 ^ (ptr_bits cls - k)) in *.
  assert (Hq : q < X) by (apply (Z.mul_lt_mono_pos_r p); lia).
  replace (q * p + p) with ((q + 1) * p) by ring.
  rewrite (Z.mul_comm p X). apply Z.mul_le_mono_nonneg_r; lia.
Qed.

Lemma get_val_agree cls mem mem' entry addr k :
  1 <= k <= 3 ->
  0 <= addr < ptr_modulus cls ->
  agree_on (may_read cls entry) mem mem' ->
  get_val cls mem entry addr (2 ^ k) = get_val cls mem' entry addr (2 ^ k).
Proof.
  intros Hk Ha Hagree.
  assert (Hp : 0 < 2 ^ k <= 8).
  { split; [apply Z.pow_pos_nonneg; lia|].
    change 8 with (2 ^ 3). apply Z.pow_le_mono_r; lia. }
  destruct (get_val cls mem entry addr (2 ^ k)) as [v|] eqn:E.
  - symmetry. apply get_val_Some. apply get_val_Some in E.
    destruct E as (Hr & Hs & He & Hal & ->).
    repeat (split; [assumption|]).
    rewrite land_pow2_pred in Hal by lia.
    pose proof (aligned_field_fits cls addr k ltac:(lia) Ha Hal) as Hfit.
    apply load_agree; [lia | rewrite Z2Nat.id by lia; assumption |].
    rewrite Z2Nat.id by lia. intros i Hi. apply Hagree. unfold may_read.
    destruct (Z.eq_dec (addr + 2 ^ k) (ptr_modulus cls)) as [Heq|Hne].
    + right. lia.
    + left. rewrite (wrap_small cls (addr + 2 ^ k)) in He by lia. lia.
  - symmetry. eapply get_val_denied_any_image, E.
Qed.

Lemma sizeof_pow2 cls :
  sizeof_Half = 2 ^ 1 /\ sizeof_Word = 2 ^ 2
  /\ (exists k, 1 <= k <= 3 /\ sizeof_Off cls = 2 ^ k)
  /\ (exists k, 1 <= k <= 3 /\ sizeof_Addr cls = 2 ^ k).
Proof.
  split; [reflexivity|]. split; [reflexivity|].
  destruct cls; split; ((exists 2; split; [lia | reflexivity])
                        || (exists 3; split; [lia | reflexivity])).
Qed.

Lemma phdr_loop_agree cls mem mem' entry n :
  agree_on (may_read cls entry) mem mem' ->
  forall addr,
    phdr_loop cls mem entry n addr = phdr_loop cls mem' entry n addr.
Proof.
  intros Hagree.
  destruct (sizeof_pow2 cls) as (_ & Hw & (ko & Hko & Ho) & (ka & Hka & Hadr)).
  induction n as [|n IH]; intros addr; [reflexivity|].
  cbn [phdr_loop]. rewrite Hw, Ho, Hadr.
  rewrite !(get_val_agree cls mem mem' entry) by (assumption || lia || apply wrap_range).
  rewrite IH. reflexivity.
Qed.

Lemma read_loadbias_agree cls mem mem' entry :
  agree_on (may_read cls entry) mem mem' ->
  read_loadbias cls mem entry = read_loadbias cls mem' entry.
Proof.
  intros Hagree.
  destruct (sizeof_pow2 cls) as (Hh & _ & (ko & Hko & Ho) & _).
  unfold read_loadbias. rewrite Hh, Ho.
  assert (Hagree' : agree_on (may_read cls (set_load_bias 0 entry)) mem mem')
    by exact Hagree.
  rewrite !(get_val_agree cls mem mem' (set_load_bias 0 entry))
    by (assumption || lia || apply wrap_range).
  destruct (get_val cls mem' _ _ (2 ^ 1)); [|reflexivity].
  destruct (get_val cls mem' _ _ (2 ^ ko)); [|reflexivity].
  rewrite (phdr_loop_agree cls mem mem' _ _ Hagree'). reflexivity.
Qed.

Lemma valid_elf_agree cls mem mem' entry :
  0 <= start entry ->
  agree_on (may_read cls entry) mem mem' ->
  valid_elf cls mem entry = valid_elf cls mem' entry.
Proof.
  intros Hs Hagree. unfold valid_elf.
  destruct (Z.leb_spec (ptr_modulus cls) (start entry + SELFMAG)); [reflexivity|].
  destruct (Z.geb_spec (start entry + SELFMAG) (end_ entry)); [reflexivity|].
  cbn [orb]. unfold SELFMAG in *.
  rewrite (bytes_at_agree cls mem mem' (Z.to_nat 4) (start entry)); [reflexivity | lia | |].
  - change (Z.of_nat (Z.to_nat 4)) with 4. lia.
  - change (Z.of_nat (Z.to_nat 4)) with 4. intros i Hi. apply Hagree. left. lia.
Qed.

(** X14.  [init] depends on the image only through the bytes of the
    mapping itself and the last eight bytes of the address space: two
    images that agree there give the same entry, whatever the rest of
    the images holds and whatever the header of the mapped file says. *)
Theorem init_reads_only_the_mapping cls mem mem' entry :
  0 <= start entry ->
  agree_on (may_read cls entry) mem mem' ->
  init_entry cls mem entry = init_entry cls mem' entry.
Proof.
  intros Hs Hagree. unfold init_entry.
  destruct (init entry); [reflexivity|].
  rewrite (valid_elf_agree cls mem mem' (set_init true entry)) by assumption.
  destruct (valid_elf cls mem' (set_init true entry)); [|reflexivity].
  apply read_loadbias_agree. exact Hagree.
Qed.

Lemma init_reads_only_the_mapping_witness :
  init_entry ELFCLASS64 biased_image entry_ro
  = init_entry ELFCLASS64 (store 12288 4 305419896 biased_image) entry_ro.
Proof.
  apply (init_reads_only_the_mapping
           ELFCLASS64 biased_image (store 12288 4 305419896 biased_image) entry_ro).
  - vm_compute. discriminate.
  - intros a Ha. unfold byte_at.
    assert (Hout : a < 12288 \/ 12292 <= a).
    { unfold may_read in Ha. change (start entry_ro) with 4096 in Ha.
      change (end_ entry_ro) with 8192 in Ha.
      change (ptr_modulus ELFCLASS64) with 18446744073709551616 in Ha. lia. }
    cbn [store].
    destruct (Z.eqb_spec a 12288) as [E|E]; [lia|].
    destruct (Z.eqb_spec a (12288 + 1)) as [E1|E1]; [lia|].
    destruct (Z.eqb_spec a (12288 + 1 + 1)) as [E2|E2]; [lia|].
    destruct (Z.eqb_spec a (12288 + 1 + 1 + 1)) as [E3|E3]; [lia|].
    reflexivity.
Defined.

(** ** Parsing a line in the documented format *)

Lemma hex_char_props d :
  0 <= d < 16 ->
  hex_digit (hex_char d) = Some d
  /\ isspace (hex_char d) = false
  /\ (hex_char d =? "-")%char = false
  /\ (hex_char d =? "+")%char = false
  /\ (hex_char d =? "x")%char = false
  /\ (hex_char d =? "X")%char = false
  /\ (d < 10 -> dec_digit (hex_char d) = Some d).
Proof.
  intros H.
  assert (Hd : d = 0 \/ d = 1 \/ d = 2 \/ d = 3 \/ d = 4 \/ d = 5 \/ d = 6 \/ d = 7
               \/ d = 8 \/ d = 9 \/ d = 10 \/ d = 11 \/ d = 12 \/ d = 13 \/ d = 14
               \/ d = 15) by lia.
  repeat (destruct Hd as [->|Hd]; [repeat split; try reflexivity; intros; lia|]).
  subst d. repeat split; try reflexivity; intros; lia.
Qed.

Lemma fold_digits_nonneg base ds :
  0 <= base ->
  Forall (fun d => 0 <= d < base) ds ->
  forall acc, 0 <= acc -> 0 <= fold_left (fun a d => base * a + d) ds acc.
Proof.
  intros Hb. induction 1 as [|d ds Hd Hds IH]; intros acc Hacc; simpl; [assumption|].
  apply IH. nia.
Qed.

Lemma scan_digits_hex_numeral ds rest :
  Forall (fun d => 0 <= d < 16) ds ->
  ends_numeral rest ->
  forall acc,
    scan_digits hex_digit 16 acc (numeral ds rest)
    = (fold_left (fun a d => 16 * a + d) ds acc, rest).
Proof.
  intros Hds Hrest. induction Hds as [|d ds Hd Hds IH]; intros acc.
  - simpl. destruct rest as [|c rest]; [reflexivity|].
    simpl. destruct Hrest as (-> & _). reflexivity.
  - cbn [numeral scan_digits fold_left].
    destruct (hex_char_props d Hd) as (-> & _). apply IH.
Qed.

Lemma scan_digits_dec_numeral ds c rest :
  Forall (fun d => 0 <= d < 10) ds ->
  dec_digit c = None ->
  forall acc,
    snd (scan_digits dec_digit 10 acc (numeral ds (String c rest))) = String c rest.
Proof.
  intros Hds Hc. induction Hds as [|d ds Hd Hds IH]; intros acc.
  - simpl. rewrite Hc. reflexivity.
  - cbn [numeral scan_digits].
    destruct (hex_char_props d ltac:(lia)) as (_ & _ & _ & _ & _ & _ & Hdec).
    rewrite (Hdec ltac:(lia)). apply IH.
Qed.

Lemma numeral_first_not_x ds rest x t :
  Forall (fun d => 0 <= d < 16) ds ->
  ends_numeral rest ->
  numeral ds rest = String x t ->
  (x =? "x")%char = false /\ (x =? "X")%char = false.
Proof.
  intros Hds Hrest. destruct Hds as [|d ds Hd Hds]; simpl.
  - intros ->. simpl in Hrest. tauto.
  - intros [= <- _]. destruct (hex_char_props d Hd) as (_ & _ & _ & _ & Hx & HX & _).
    auto.
Qed.

Lemma to_uintptr_small cls v :
  0 <= v < ptr_modulus cls -> to_uintptr cls false v = v.
Proof.
  intros Hv. unfold to_uintptr.
  assert (Hm : ptr_modulus cls <= 2 ^ 64) by (destruct cls; vm_compute; discriminate).
  destruct (Z.leb_spec (2 ^ 64) v); [lia|]. apply wrap_small. assumption.
Qed.

(** A numeral at the front of the input is converted whole. *)
Lemma scan_hex_numeral cls ds rest :
  digits_below 16 ds ->
  ends_numeral rest ->
  scan_hex cls (numeral ds rest)
  = Some (to_uintptr cls false (numeral_value 16 ds), rest).
Proof.
  intros [Hne Hds] Hrest.
  destruct ds as [|d ds]; [contradiction|].
  pose proof (scan_digits_hex_numeral (d :: ds) rest Hds Hrest 0) as Hscan.
  inversion Hds as [|? ? Hd Hds']; subst.
  destruct (hex_char_props d Hd) as (Hh & Hsp & Hm & Hp & _).
  unfold scan_hex. cbn [numeral] in *. cbn [skip_space]. rewrite Hsp.
  unfold scan_sign. rewrite Hm, Hp.
  assert (Hpre : match numeral ds rest with
                 | String x (String h t) =>
                   if (hex_char d =? "0")%char && ((x =? "x") || (x =? "X"))%char && is_hex h
                   then String h t else String (hex_char d) (numeral ds rest)
                 | _ => String (hex_char d) (numeral ds rest)
                 end = String (hex_char d) (numeral ds rest)).
  { destruct (numeral ds rest) as [|x [|h t]] eqn:E; try reflexivity.
    destruct (numeral_first_not_x ds rest x _ Hds' Hrest E) as [-> ->].
    rewrite andb_false_r. reflexivity. }
  rewrite Hpre. rewrite Hh, Hscan. reflexivity.
Qed.

Lemma scan_dec_numeral ds c rest :
  digits_below 10 ds ->
  dec_digit c = None ->
  scan_dec (numeral ds (String c rest)) = Some (String c rest).
Proof.
  intros [Hne Hds] Hc.
  destruct ds as [|d ds]; [contradiction|].
  pose proof (scan_digits_dec_numeral (d :: ds) c rest Hds Hc 0) as Hscan.
  inversion Hds as [|? ? Hd Hds']; subst.
  destruct (hex_char_props d ltac:(lia)) as (_ & Hsp & Hm & Hp & _ & _ & Hdec).
  unfold scan_dec. cbn [numeral] in *. cbn [skip_space]. rewrite Hsp.
  unfold scan_sign. rewrite Hm, Hp, (Hdec ltac:(lia)). rewrite Hscan. reflexivity.
Qed.

Lemma skip_space_numeral ds rest :
  digits_below 16 ds -> skip_space (numeral ds rest) = numeral ds rest.
Proof.
  intros [Hne Hds]. destruct ds as [|d ds]; [contradiction|].
  inversion Hds as [|? ? Hd _]; subst.
  destruct (hex_char_props d Hd) as (_ & Hsp & _).
  cbn [numeral skip_space]. rewrite Hsp. reflexivity.
Qed.

Lemma is_suffix_numeral ds rest : is_suffix rest (numeral ds rest).
Proof.
  induction ds as [|d ds IH]; [apply is_suffix_refl|].
  eapply is_suffix_trans; [exact IH | apply is_suffix_cons].
Qed.

Lemma string_last_append_char a c :
  string_last (String.append a (String c EmptyString)) = Some c.
Proof.
  induction a as [|x a IH]; [reflexivity|].
  cbn [String.append]. destruct (String.append a (String c EmptyString)) eqn:E.
  - destruct a; discriminate.
  - exact IH.
Qed.

Lemma substring_append_prefix a b :
  substring 0 (String.length a) (String.append a b) = a.
Proof.
  induction a as [|x a IH]; simpl; [destruct b; reflexivity | rewrite IH; reflexivity].
Qed.

Lemma digits_weaken ds : digits_below 10 ds -> digits_below 16 ds.
Proof.
  intros [Hne Hds]. split; [assumption|].
  eapply Forall_impl; [exact Hds|]. simpl. intros d Hd. lia.
Qed.

Lemma scan_tail_numerals cls line major minor inode rest :
  digits_below 16 major ->
  digits_below 16 minor ->
  digits_below 10 inode ->
  scan_tail cls line
    (String " " (numeral major (String ":"
       (numeral minor (String " " (numeral inode (String " " rest)))))))
  = Some (String.length line - String.length (skip_space rest))%nat.
Proof.
  intros Hmaj Hmin Hino. unfold scan_tail.
  change (skip_space (String " " ?r)) with (skip_space r).
  rewrite (skip_space_numeral major) by assumption.
  rewrite (scan_hex_numeral cls major) by (assumption || (simpl; auto)).
  cbn [expect]. rewrite Ascii.eqb_refl.
  rewrite (scan_hex_numeral cls minor) by (assumption || (simpl; auto)).
  change (skip_space (String " " ?r)) with (skip_space r).
  rewrite (skip_space_numeral inode) by (apply digits_weaken; assumption).
  rewrite (scan_dec_numeral inode " " rest) by (assumption || reflexivity).
  reflexivity.
Qed.

Lemma flags_of_steps (p0 p2 : ascii) :
  (let flags := 0 in
   let flags := if (p0 =? "r")%char then Z.lor flags PROT_READ else flags in
   if (p2 =? "x")%char then Z.lor flags PROT_EXEC else flags)
  = flags_of p0 p2
  /\ (Z.land (flags_of p0 p2) PROT_READ =? 0) = negb (p0 =? "r")%char.
Proof.
  unfold flags_of. destruct (p0 =? "r")%char, (p2 =? "x")%char; split; reflexivity.
Qed.

(** The name field: what follows the last blank, without the newline. *)
Lemma name_of_tail nm :
  (forall c t, nm = String c t -> isspace c = false) ->
  let suf := skip_space (String.append nm (String newline EmptyString)) in
  substring 0
            (match string_last suf with
             | Some c => if (c =? newline)%char
                         then (String.length suf - 1)%nat else String.length suf
             | None => String.length suf
             end) suf
  = nm.
Proof.
  intros Hnm. destruct nm as [|c t]; [reflexivity|].
  cbn [String.append skip_space]. rewrite (Hnm c t eq_refl).
  change (String c (String.append t (String newline EmptyString)))
    with (String.append (String c t) (String newline EmptyString)).
  rewrite string_last_append_char, Ascii.eqb_refl, length_append.
  replace (String.length (String c t) + String.length (String newline EmptyString) - 1)%nat
    with (String.length (String c t)) by (simpl; lia).
  apply substring_append_prefix.
Qed.

(** X15.  A line in the format the source documents,
    [start-end perms offset major:minor inode name] with hexadecimal
    numbers that fit [uintptr_t], four permission characters and a name
    that does not begin with a blank, parses to the entry with these
    fields: the numbers as written, the name without the newline,
    [PROT_READ] set for a first permission [r], [PROT_EXEC] for a third
    permission [x]; the entry is new, and initialised already when it is
    not readable. *)
Theorem parse_line_of_maps_line cls s e o major minor inode p0 p1 p2 p3 nm :
  digits_below 16 s -> digits_below 16 e -> digits_below 16 o ->
  digits_below 16 major -> digits_below 16 minor -> digits_below 10 inode ->
  numeral_value 16 s < ptr_modulus cls ->
  numeral_value 16 e < ptr_modulus cls ->
  numeral_value 16 o < ptr_modulus cls ->
  isspace p0 = false -> isspace p1 = false ->
  isspace p2 = false -> isspace p3 = false ->
  (forall c t, nm = String c t -> isspace c = false) ->
  parse_line cls (maps_line s e p0 p1 p2 p3 o major minor inode nm)
  = ParseEntry
      (let entry := new_MapEntry (numeral_value 16 s) (numeral_value 16 e)
                                 (numeral_value 16 o) nm (flags_of p0 p2) in
       if (p0 =? "r")%char then entry else set_init true entry).
Proof.
  intros Hs He Ho Hmaj Hmin Hino Vs Ve Vo S0 S1 S2 S3 Hnm.
  assert (Nn : forall ds, digits_below 16 ds -> 0 <= numeral_value 16 ds).
  { intros ds [_ Hds]. apply fold_digits_nonneg; [lia | assumption | lia]. }
  set (line := maps_line s e p0 p1 p2 p3 o major minor inode nm).
  set (tail := String.append nm (String newline EmptyString)).
  assert (Hsc : sscanf_line cls line
                = mkScanned 4 (Some (numeral_value 16 s)) (Some (numeral_value 16 e))
                            (Some (String p0 (String p1 (String p2 (String p3 EmptyString)))))
                            (Some (numeral_value 16 o))
                            (Some (String.length line - String.length (skip_space tail))%nat)).
  { unfold sscanf_line. unfold line at 1. unfold maps_line.
    rewrite (scan_hex_numeral cls s) by (assumption || (simpl; auto)).
    cbn [expect]. rewrite Ascii.eqb_refl.
    rewrite (scan_hex_numeral cls e) by (assumption || (simpl; auto)).
    change (skip_space (String " " ?r)) with (skip_space r).
    unfold scan_str4. cbn [skip_space]. rewrite S0. cbn [skip_space]. rewrite S0.
    cbn [scan_word]. rewrite S0, S1, S2, S3.
    change (skip_space (String " " ?r)) with (skip_space r).
    rewrite (skip_space_numeral o) by assumption.
    rewrite (scan_hex_numeral cls o) by (assumption || (simpl; auto)).
    rewrite (scan_tail_numerals cls line major minor inode) by assumption.
    rewrite !to_uintptr_small by auto.
    reflexivity. }
  assert (Hsuf : is_suffix (skip_space tail) line).
  { eapply is_suffix_trans; [apply skip_space_suffix|].
    unfold line, maps_line.
    repeat (first [ apply is_suffix_refl
                  | eapply is_suffix_trans; [|apply is_suffix_numeral]
                  | eapply is_suffix_trans; [|apply is_suffix_cons] ]). }
  unfold parse_line. rewrite Hsc.
  cbn [sc_ret sc_start sc_end sc_permissions sc_offset sc_name_pos].
  change (4 <? 2) with false. cbv iota.
  rewrite (string_drop_suffix _ line Hsuf).
  cbv zeta. subst tail. rewrite (name_of_tail nm Hnm).
  change (permissions_at (String p0 (String p1 (String p2 (String p3 EmptyString)))) 0)
    with (Some p0).
  change (permissions_at (String p0 (String p1 (String p2 (String p3 EmptyString)))) 2)
    with (Some p2).
  cbv iota.
  destruct (flags_of_steps p0 p2) as [Hf Hr]. cbv zeta in Hf. rewrite Hf, Hr.
  destruct (p0 =? "r")%char; reflexivity.
Qed.

Lemma parse_line_of_maps_line_witness :
  parse_line ELFCLASS64
             (maps_line [1; 0; 0; 0] [2; 0; 0; 0] "r" "-" "-" "p"
                        [0; 0; 0; 0; 0; 0; 0; 0] [0; 0] [0; 0] [0] "/lib/x.so")
  = ParseEntry
      (let entry := new_MapEntry (numeral_value 16 [1; 0; 0; 0])
                                 (numeral_value 16 [2; 0; 0; 0])
                                 (numeral_value 16 [0; 0; 0; 0; 0; 0; 0; 0])
                                 "/lib/x.so" (flags_of "r" "-") in
       if ("r" =? "r")%char then entry else set_init true entry).
Proof.
  apply (parse_line_of_maps_line ELFCLASS64);
    try (split; [discriminate | repeat constructor; lia]);
    try reflexivity.
  intros c t [= <- _]. reflexivity.
Defined.

(** ** Lines without a start address *)

(** X16.  A line that is blank, or whose first character after the
    blanks is neither a sign nor a hexadecimal digit, makes [parse_line]
    return the null pointer; [ReadMaps] then fails at this line and
    leaves the table as the lines before it made it. *)
Theorem line_without_start_is_rejected cls line :
  match skip_space line with
  | EmptyString => True
  | String c _ =>
    hex_digit c = None /\ (c =? "-")%char = false /\ (c =? "+")%char = false
  end ->
  parse_line cls line = ParseNull
  /\ forall lines tbl, ReadMaps_loop cls (line :: lines) tbl = Some (false, tbl).
Proof.
  intros H.
  assert (Hscan : scan_hex cls line = None).
  { unfold scan_hex. destruct (skip_space line) as [|c rest]; [reflexivity|].
    destruct H as (Hh & Hm & Hp). unfold scan_sign. rewrite Hm, Hp.
    assert (H0 : (c =? "0")%char = false).
    { destruct (Ascii.eqb_spec c "0") as [->|]; [discriminate Hh | reflexivity]. }
    destruct rest as [|x [|h t]]; rewrite ?H0; cbn [andb]; rewrite Hh; reflexivity. }
  assert (Hnull : parse_line cls line = ParseNull)
    by (apply malformed_address_null; left; apply (scan_hex_None_iff cls); exact Hscan).
  split; [exact Hnull|].
  intros lines tbl. cbn [ReadMaps_loop]. rewrite Hnull. reflexivity.
Qed.

Lemma line_without_start_is_rejected_witness :
  parse_line ELFCLASS64 (String newline EmptyString) = ParseNull
  /\ forall lines tbl,
      ReadMaps_loop ELFCLASS64 (String newline EmptyString :: lines) tbl = Some (false, tbl).
Proof.
  apply (line_without_start_is_rejected ELFCLASS64 (String newline EmptyString)).
  exact I.
Defined.

(** ** What a successful refresh covers *)

Lemma entries_find_of_elem probe (tbl : list MapEntry) e :
  e ∈ tbl -> contains probe e = true -> exists it, entries_find probe tbl = Some it.
Proof.
  intros Hin Hc.
  destruct (entries_find probe tbl) as [it|] eqn:E; [eauto|].
  apply list_elem_of_lookup in Hin as [i Hi].
  pose proof (proj1 (entries_find_None probe tbl) E i e Hi). congruence.
Qed.

Lemma entries_find_sublist probe (tbl tbl' : list MapEntry) it :
  tbl `sublist_of` tbl' ->
  entries_find probe tbl = Some it ->
  exists it', entries_find probe tbl' = Some it'.
Proof.
  intros Hsub Hf.
  destruct (entries_find_Some _ _ _ Hf) as (e & He & Hc).
  apply (entries_find_of_elem probe tbl' e); [|assumption].
  eapply elem_of_submseteq; [|apply sublist_submseteq, Hsub].
  apply list_elem_of_lookup. eauto.
Qed.

(** X17.  After a refresh that read the whole source, the start address
    of every non-empty mapping listed there lies in an entry of the
    table: either the entry made from its line, or one that was there
    before and contains that address. *)
Theorem refresh_covers_listed_mappings cls lines :
  forall tbl tbl' line e,
    ReadMaps_loop cls lines tbl = Some (true, tbl') ->
    line ∈ lines ->
    parse_line cls line = ParseEntry e ->
    start e < end_ e ->
    exists it entry,
      entries_find (start e) tbl' = Some it
      /\ tbl' !! it = Some entry
      /\ contains (start e) entry = true.
Proof.
  assert (Hfin : forall probe (t : list MapEntry),
             (exists it, entries_find probe t = Some it) ->
             exists it entry, entries_find probe t = Some it
                              /\ t !! it = Some entry /\ contains probe entry = true).
  { intros probe t [it Hit]. destruct (entries_find_Some _ _ _ Hit) as (en & H1 & H2).
    eauto. }
  induction lines as [|l lines IH]; intros tbl tbl' line e Hloop Hin Hp Hlt.
  - apply elem_of_nil in Hin. contradiction.
  - cbn [ReadMaps_loop] in Hloop.
    destruct (parse_line cls l) as [|entry|] eqn:Hpl; try discriminate.
    apply elem_of_cons in Hin as [->|Hin].
    + rewrite Hp in Hpl. injection Hpl as <-. apply Hfin.
      destruct (entries_find (start e) tbl) as [it|] eqn:Hf.
      * eapply entries_find_sublist; [eapply ReadMaps_loop_sublist, Hloop | exact Hf].
      * apply (entries_find_of_elem (start e) tbl' e).
        -- eapply elem_of_submseteq; [apply entries_insert_elem|].
           eapply sublist_submseteq, ReadMaps_loop_sublist, Hloop.
        -- unfold contains. apply andb_true_iff. split; [apply Z.leb_le | apply Z.ltb_lt]; lia.
    + destruct (entries_find (start entry) tbl); eapply IH; eassumption.
Qed.

Lemma refresh_covers_listed_mappings_witness :
  exists it entry,
    entries_find (start entry_rx) [entry_ro; entry_rx] = Some it
    /\ [entry_ro; entry_rx] !! it = Some entry
    /\ contains (start entry_rx) entry = true.
Proof.
  apply (refresh_covers_listed_mappings
           ELFCLASS64 [line_ro; line_rx] [] [entry_ro; entry_rx] line_rx entry_rx).
  - vm_compute. reflexivity.
  - apply elem_of_cons. right. apply elem_of_cons. left. reflexivity.
  - vm_compute. reflexivity.
  - vm_compute. reflexivity.
Defined.

(** ** Invariants of the table *)

Lemma parse_line_ranges cls line entry :
  parse_line cls line = ParseEntry entry ->
  0 <= start entry < ptr_modulus cls
  /\ 0 <= end_ entry < ptr_modulus cls
  /\ 0 <= offset entry < ptr_modulus cls.
Proof.
  intros Hp.
  destruct (sscanf_line_ranges cls line) as (Rs & Re & Ro).
  unfold parse_line in Hp.
  destruct (sc_ret _ <? 2); [discriminate|].
  destruct (sc_start _) as [s|]; [|discriminate].
  destruct (sc_end _) as [e|]; [|discriminate].
  destruct (sc_permissions _) as [perms|]; [|discriminate].
  destruct (sc_offset _) as [o|]; [|discriminate].
  destruct (sc_name_pos _); [|discriminate].
  destruct (permissions_at _ 0) as [p0|]; [|discriminate].
  destruct (permissions_at _ 2) as [p2|]; [|discriminate].
  specialize (Rs s eq_refl). specialize (Re e eq_refl). specialize (Ro o eq_refl).
  destruct (Z.land _ PROT_READ =? 0); injection Hp as <-; simpl; auto.
Qed.

Lemma parse_line_entry_ok cls line entry :
  parse_line cls line = ParseEntry entry -> entry_ok cls entry.
Proof.
  intros Hp.
  destruct (parse_line_ranges cls line entry Hp) as (Hs & He & Ho).
  destruct (parse_line_fresh cls line entry Hp) as (Hb & Hv & Hx).
  pose proof (parse_line_init cls line entry Hp) as Hi.
  pose proof (ptr_modulus_pos cls) as Hm.
  unfold entry_ok. rewrite Hb, Hx, Hv, Hi.
  split; [assumption|]. split; [assumption|]. split; [assumption|].
  split; [lia|]. split; [lia|].
  split; [intros H; apply Z.eqb_neq; exact H|].
  split; [discriminate | reflexivity].
Qed.

Lemma init_entry_ok cls mem entry :
  entry_ok cls entry -> entry_ok cls (init_entry cls mem entry).
Proof.
  intros (Hs & He & Ho & Hb & Hx & Hi & Hv & Hz).
  destruct (init_entry_frame cls mem entry) as (Fs & Fe & Fo & _ & Ff & Fx).
  unfold entry_ok. rewrite Fs, Fe, Fo, Ff, Fx, init_entry_init.
  repeat (split; [assumption|]).
  split.
  { unfold init_entry. destruct (init entry); [assumption|].
    destruct (valid_elf cls mem (set_init true entry)); [|assumption].
    apply read_loadbias_range. }
  split; [assumption|]. split; [discriminate|]. split.
  - intros Hvalid. split; [reflexivity|].
    destruct (init entry) eqn:Ei.
    + rewrite (init_entry_of_init cls mem entry Ei) in Hvalid. apply Hv. assumption.
    + apply Hi. reflexivity.
  - apply init_entry_bias_inv. exact Hz.
Qed.

Lemma borrowed_entry_ok cls entry prev :
  entry_ok cls entry -> entry_ok cls prev ->
  entry_ok cls (set_elf_start_offset (offset prev) entry).
Proof.
  intros (Hs & He & Ho & Hb & Hx & Hi & Hv & Hz) (_ & _ & Hpo & _).
  unfold entry_ok. cbn. auto 10.
Qed.

Lemma find_at_entry_ok cls mem pc want it d :
  Forall (entry_ok cls) (entries_ d) ->
  Forall (entry_ok cls) (entries_ (found_data (find_at cls mem pc want it d))).
Proof.
  intros Hd.
  destruct (entries_ d !! it) as [entry|] eqn:Hit;
    [|unfold find_at; rewrite Hit; assumption].
  pose proof (Forall_lookup_1 _ _ _ _ Hd Hit) as He.
  pose proof (init_entry_ok cls mem entry He) as Hie.
  destruct (find_at_cases cls mem pc want it d entry Hit)
    as [(_ & ->) | [(_ & _ & ->) | (prev & _ & _ & _ & Hprev & _ & [(_ & ->) | (_ & ->)])]];
    cbn [found_data]; unfold with_entries; cbn [entries_].
  - apply Forall_insert; assumption.
  - apply Forall_insert; assumption.
  - pose proof (Forall_lookup_1 _ _ _ _ Hd Hprev) as Hp.
    repeat (apply Forall_insert; [|auto using init_entry_ok]). assumption.
  - pose proof (Forall_lookup_1 _ _ _ _ Hd Hprev) as Hp.
    apply Forall_insert; [|apply borrowed_entry_ok; assumption].
    repeat (apply Forall_insert; [|auto using init_entry_ok]). assumption.
Qed.

Lemma ReadMaps_loop_entry_ok cls lines :
  forall tbl ok tbl',
    Forall (entry_ok cls) tbl ->
    ReadMaps_loop cls lines tbl = Some (ok, tbl') ->
    Forall (entry_ok cls) tbl'.
Proof.
  induction lines as [|line lines IH]; intros tbl ok tbl' Htbl; simpl.
  - intros [= _ <-]. assumption.
  - destruct (parse_line cls line) as [|entry|] eqn:Hp; [|..|discriminate].
    + intros [= _ <-]. assumption.
    + destruct (entries_find (start entry) tbl); [apply IH; assumption|].
      apply IH. apply entries_insert_Forall; [|assumption].
      apply (parse_line_entry_ok cls line entry Hp).
Qed.

(** X18.  In every table a program can get to by calls of [find],
    starting from the empty one, with whatever images and mapping
    sources: all numbers of every entry are values of [uintptr_t]; an
    entry that is valid is initialised and readable; an entry that is
    not yet initialised is readable; and an entry that is not valid has
    bias 0. *)
Theorem reachable_entries_are_ok cls d :
  reachable cls d -> Forall (entry_ok cls) (entries_ d).
Proof.
  induction 1 as [|d mem src pc want r Hreach IH Hfind]; [constructor|].
  destruct (find_inv _ _ _ _ _ _ _ Hfind)
    as [(d1 & it & Hloc & ->) | (_ & _ & _ & ok & Hread)].
  - apply find_at_entry_ok.
    destruct Hloc as [[_ ->] | (_ & [ok Hread] & _)]; [assumption|].
    unfold ReadMaps in Hread. destruct (src (refreshes d)) as [text|].
    + destruct (ReadMaps_loop _ _ _) as [[ok' tbl]|] eqn:E; [|discriminate].
      injection Hread as _ <-. cbn [entries_].
      eapply ReadMaps_loop_entry_ok; [|exact E]. assumption.
    + injection Hread as _ <-. assumption.
  - unfold ReadMaps in Hread. destruct (src (refreshes d)) as [text|].
    + destruct (ReadMaps_loop _ _ _) as [[ok' tbl]|] eqn:E; [|discriminate].
      injection Hread as _ Hd. rewrite <- Hd. cbn [entries_].
      eapply ReadMaps_loop_entry_ok; [|exact E]. assumption.
    + injection Hread as _ Hd. rewrite <- Hd. assumption.
Qed.

Lemma reachable_entries_are_ok_witness :
  Forall (entry_ok ELFCLASS64)
         (entries_ (found_data (find_at ELFCLASS64 biased_image 9472 true 1 split_data))).
Proof.
  apply (reachable_entries_are_ok ELFCLASS64).
  apply (reachable_find ELFCLASS64 (mkMapData [] 0) biased_image split_source 9472 true).
  - apply reachable_new.
  - reflexivity.
Defined.
